(** * ScrollGuard: a shallow embedding of ScrollGuard.cpp

    ScrollGuard installs a low-level mouse hook and swallows wheel events
    while a chosen process owns the foreground window and the cursor is over
    some other process's window.  This development embeds the hook procedure,
    the window enumerator and the start-up flow of [wmain] as functions over
    an explicit record of the Win32 queries they make, and proves the
    behavioural properties of the program over that embedding. *)

From Stdlib Require Import String Ascii.
From Stdlib Require Import ZArith List Bool Lia Permutation Sorted.
Import ListNotations.
Open Scope Z_scope.

(** ** Win32 data *)

(** Handles are machine words; the null handle is zero, as in [if (!h)]. *)
Definition HWND := Z.
Definition HHOOK := Z.
Definition DWORD := Z.
Definition WPARAM := Z.
Definition NULL : Z := 0.

(** [wchar_t] code units (0..65535) and [std::wstring]. *)
Definition wchar := Z.
Definition wstring := list wchar.

(** A wide string literal [L"..."] with ASCII contents. *)
Definition L (s : string) : wstring :=
  map (fun c => Z.of_nat (nat_of_ascii c)) (list_ascii_of_string s).

Record POINT := mkPOINT { pt_x : Z; pt_y : Z }.

(** The structure [lParam] points to in a low-level mouse hook. *)
Record MSLLHOOKSTRUCT := mkMSLL {
  pt : POINT;
  mouseData : DWORD;
  flags : DWORD;
  time : DWORD;
  dwExtraInfo : Z
}.

(** Constants of WinUser.h / WinCon.h used by the program. *)
Definition HC_ACTION : Z := 0.
Definition WM_MOUSEWHEEL : WPARAM := 0x020A.
Definition WM_MOUSEHWHEEL : WPARAM := 0x020E.
Definition WM_MOUSEMOVE : WPARAM := 0x0200.
Definition CTRL_C_EVENT : DWORD := 0.
Definition CTRL_BREAK_EVENT : DWORD := 1.
Definition CTRL_CLOSE_EVENT : DWORD := 2.

(** The operating-system state the program observes, one field per query.
    A query that can fail returns [None] (or the null handle), so that the
    code's own handling of the failure is what the embedding executes. *)
Record Win32 := mkWin32 {
  (* windows *)
  GetForegroundWindow : HWND;
  WindowFromPoint : POINT -> HWND;
  GetAncestor_GA_ROOT : HWND -> HWND;
  (* the process id written through the out-parameter, [None] when the
     call fails and leaves the caller's variable untouched *)
  GetWindowThreadProcessId : HWND -> option DWORD;
  (* enumeration *)
  TopLevelWindows : list HWND;          (* the order EnumWindows visits *)
  IsWindowVisible : HWND -> bool;
  GetWindowTextLengthW : HWND -> Z;
  WindowText : HWND -> wstring;         (* what GetWindowTextW copies from *)
  (* processes *)
  OpenProcess : DWORD -> bool;          (* a non-null handle was returned *)
  GetModuleBaseNameW : DWORD -> option wstring;
  QueryFullProcessImageNameW : DWORD -> option wstring;
  (* cursor *)
  GetCursorPos : option POINT
}.

(** [DWORD pid = 0; GetWindowThreadProcessId(h, &pid);] *)
Definition pid_of_window (os : Win32) (h : HWND) : DWORD :=
  match GetWindowThreadProcessId os h with
  | Some p => p
  | None => 0
  end.

(** ** Globals for the hook *)

Record Globals := mkGlobals {
  g_mouseHook : HHOOK;
  g_targetPid : DWORD;
  g_running : bool
}.

Definition initial_globals : Globals := mkGlobals NULL 0 true.

(** ** The point resolver *)

Definition PidFromPoint (os : Win32) (p : POINT) : DWORD :=
  let h := WindowFromPoint os p in
  if h =? NULL then 0
  else
    let root := GetAncestor_GA_ROOT os h in
    let root := if root =? NULL then h else root in
    pid_of_window os root.

(** ** The low-level mouse hook *)

(** What the hook procedure does with the event: it either returns 1, which
    stops the event, or hands the event to the next hook with the arguments
    shown and returns whatever that call returns. *)
Inductive HookAction :=
| Return1
| CallNextHookEx (hook : HHOOK) (nCode : Z) (wParam : WPARAM)
                 (lParam : MSLLHOOKSTRUCT).

Inductive Verdict := Forward | Swallow.

Definition verdict (a : HookAction) : Verdict :=
  match a with
  | Return1 => Swallow
  | CallNextHookEx _ _ _ _ => Forward
  end.

(** [fg = GetForegroundWindow(); fgPid = 0; if (fg) GetWindowThreadProcessId(fg, &fgPid);] *)
Definition foreground_pid (os : Win32) : DWORD :=
  let fg := GetForegroundWindow os in
  if fg =? NULL then 0 else pid_of_window os fg.

Definition is_wheel (wParam : WPARAM) : bool :=
  (wParam =? WM_MOUSEWHEEL) || (wParam =? WM_MOUSEHWHEEL).

Definition LowLevelMouseProc (os : Win32) (g : Globals)
    (nCode : Z) (wParam : WPARAM) (lParam : MSLLHOOKSTRUCT) : HookAction :=
  let next := CallNextHookEx (g_mouseHook g) nCode wParam lParam in
  if (nCode =? HC_ACTION) && negb (g_targetPid g =? 0) then
    if is_wheel wParam then
      let fgPid := foreground_pid os in
      if fgPid =? g_targetPid g then
        let underPid := PidFromPoint os (pt lParam) in
        if negb (underPid =? g_targetPid g) then Return1
        else next
      else next
    else next
  else next.

(** ** Process names *)

(** [std::wstring::find_last_of(c)]: the index of the last occurrence of
    [c], [None] standing for [npos]. *)
Fixpoint find_last_of (s : wstring) (c : wchar) : option nat :=
  match s with
  | [] => None
  | x :: s' =>
      match find_last_of s' c with
      | Some i => Some (S i)
      | None => if x =? c then Some O else None
      end
  end.

Definition GetProcessNameFromPid (os : Win32) (pid : DWORD) : wstring :=
  let name := L "(unknown)" in
  if OpenProcess os pid then
    match GetModuleBaseNameW os pid with
    | Some buf => buf
    | None =>
        match QueryFullProcessImageNameW os pid with
        | Some full =>
            let p1 := find_last_of full (Z.of_nat (nat_of_ascii "\"%char)) in
            let p2 := find_last_of full (Z.of_nat (nat_of_ascii "/"%char)) in
            let pos :=
              match p1, p2 with
              | None, _ => p2
              | _, None => p1
              | Some i1, Some i2 => if Nat.ltb i2 i1 then p1 else p2
              end in
            match pos with
            | None => full
            | Some i => skipn (S i) full
            end
        | None => name
        end
    end
  else name.

(** ** The candidate enumerator *)

Record AppEntry := mkAppEntry {
  hwnd : HWND;
  pid : DWORD;
  processName : wstring;
  windowTitle : wstring
}.

Definition NoTitle : wstring := L "[No Title]".

(** The largest [int], and [static_cast<int>(n)] for a [size_t] [n]: the
    value modulo 2^32, read as a signed 32-bit integer. *)
Definition INT_MAX : Z := 2147483647.

Definition int_of_size_t (n : Z) : Z :=
  (n + 2147483648) mod 4294967296 - 2147483648.

(** [GetWindowTextW(hwnd, buf, nMaxCount)]: copies at most [nMaxCount - 1]
    characters of the window's text, followed by a terminator, into a
    buffer of [nMaxCount] characters and returns the number copied.  With
    a count that is not positive nothing is copied and 0 is returned. *)
Definition GetWindowTextW (os : Win32) (h : HWND) (buf : wstring)
    (nMaxCount : Z) : Z * wstring :=
  if nMaxCount <=? 0 then (0, buf)
  else
    let copied := firstn (Z.to_nat (nMaxCount - 1)) (WindowText os h) in
    let n := length copied in
    (Z.of_nat n, copied ++ (0 :: skipn (S n) buf)).

(** [std::wstring::resize(n)]: truncates, or pads with zero characters. *)
Definition resize (s : wstring) (n : nat) : wstring :=
  firstn n s ++ repeat 0 (n - length s)%nat.

(** The title computed in [EnumWindowsProc] for a window. *)
Definition window_title (os : Win32) (h : HWND) : wstring :=
  let len := GetWindowTextLengthW os h in
  if len >? 0 then
    let title := resize [] (Z.to_nat len + 1) in
    let '(written, title) :=
      GetWindowTextW os h title
        (int_of_size_t (Z.of_nat (length title))) in
    let written := if written <? 0 then 0 else written in
    let title := resize title (Z.to_nat written) in
    match title with
    | [] => NoTitle
    | _ :: _ => title
    end
  else NoTitle.

(** The callback handed to [EnumWindows]; [out] is the vector behind
    [lParam], passed and returned explicitly.  The Boolean is the callback's
    return value: [TRUE] asks for the enumeration to go on. *)
Definition EnumWindowsProc (os : Win32) (h : HWND) (out : list AppEntry)
    : bool * list AppEntry :=
  if negb (IsWindowVisible os h) then (true, out)
  else
    let p := pid_of_window os h in
    if p =? 0 then (true, out)
    else if existsb (fun e => pid e =? p) out then (true, out)
    else
      let title := window_title os h in
      let e := mkAppEntry h p (GetProcessNameFromPid os p) title in
      (true, out ++ [e]).

(** [EnumWindows(cb, lParam)]: calls [cb] on each top-level window in turn
    until one call returns [FALSE]. *)
Fixpoint EnumWindows (cb : HWND -> list AppEntry -> bool * list AppEntry)
    (hs : list HWND) (out : list AppEntry) : list AppEntry :=
  match hs with
  | [] => out
  | h :: hs' =>
      let '(continue, out') := cb h out in
      if continue then EnumWindows cb hs' out' else out'
  end.

(** [towlower] in the "C" locale, which is the locale the program runs in:
    only A..Z are mapped. *)
Definition towlower (c : wchar) : wchar :=
  if (65 <=? c) && (c <=? 90) then c + 32 else c.

(** [_wcsicmp] on the [c_str()] of two strings: the lower-cased characters
    are compared until they differ or the terminator is reached (the end of
    the list is the terminator [c_str()] appends), and the difference of the
    last pair is returned. *)
Fixpoint _wcsicmp (a b : wstring) : Z :=
  match a, b with
  | [], [] => 0
  | [], y :: _ => 0 - towlower y
  | x :: _, [] => towlower x - 0
  | x :: a', y :: b' =>
      let f := towlower x in
      let l := towlower y in
      if negb (f =? 0) && (f =? l) then _wcsicmp a' b' else f - l
  end.

(** The comparison lambda passed to [std::sort] in [EnumerateApps]. *)
Definition app_less (a b : AppEntry) : bool :=
  let c := _wcsicmp (processName a) (processName b) in
  if negb (c =? 0) then c <? 0
  else _wcsicmp (windowTitle a) (windowTitle b) <? 0.

(** A comparison usable with [std::sort]: a strict weak ordering. *)
Definition strict_weak_order {A} (less : A -> A -> bool) : Prop :=
  (forall x, less x x = false) /\
  (forall x y z, less x y = true -> less y z = true -> less x z = true) /\
  (forall x y z,
      less x y = false -> less y x = false ->
      less y z = false -> less z y = false ->
      less x z = false /\ less z x = false).

(** [std::sort] is library code whose algorithm the standard leaves open.
    The program relies on its contract only: called with a strict weak
    ordering it rearranges the range so that no element is less than one
    before it.  Elements that compare equivalent may end in any order. *)
Class StdSort := {
  std_sort : forall {A}, (A -> A -> bool) -> list A -> list A;
  std_sort_permutation :
    forall A (less : A -> A -> bool) l,
      strict_weak_order less -> Permutation l (std_sort less l);
  std_sort_sorted :
    forall A (less : A -> A -> bool) l,
      strict_weak_order less ->
      StronglySorted (fun x y => less y x = false) (std_sort less l)
}.

(** One sorting algorithm meeting the contract, used to run the program on
    concrete snapshots. *)
Fixpoint insert_sorted {A} (less : A -> A -> bool) (x : A) (l : list A)
    : list A :=
  match l with
  | [] => [x]
  | y :: l' => if less x y then x :: l else y :: insert_sorted less x l'
  end.

Fixpoint insertion_sort {A} (less : A -> A -> bool) (l : list A) : list A :=
  match l with
  | [] => []
  | x :: l' => insert_sorted less x (insertion_sort less l')
  end.

(** ** Shutdown and selection *)

(** The console control handler.  It runs on a thread of its own; in the
    embedding it is a transition on the globals, and the Boolean is the
    handler's return value. *)
Definition ConsoleCtrlHandler (g : Globals) (type : DWORD) : bool * Globals :=
  if (type =? CTRL_C_EVENT) || (type =? CTRL_BREAK_EVENT)
     || (type =? CTRL_CLOSE_EVENT) then
    let g := mkGlobals (g_mouseHook g) (g_targetPid g) false in
    let g :=
      if negb (g_mouseHook g =? NULL)
      then mkGlobals NULL (g_targetPid g) (g_running g)  (* UnhookWindowsHookEx *)
      else g in
    (true, g)
  else (false, g).

(** Control events delivered to the handler, in order. *)
Definition deliver (types : list DWORD) (g : Globals) : Globals :=
  fold_left (fun g type => snd (ConsoleCtrlHandler g type)) types g.

(** One blocking call of [GetMessageW] by the message loop: the control
    events that arrive while it waits, and the value it returns. *)
Record Pump := mkPump {
  signals : list DWORD;
  GetMessageW : Z
}.

(** [while (g_running && GetMessageW(...) > 0) { Translate; Dispatch; }]
    over the calls the system answers.  [None]: the loop is still waiting in
    [GetMessageW] when the answers run out. *)
Fixpoint message_loop (g : Globals) (pumps : list Pump) : option Globals :=
  if g_running g then
    match pumps with
    | [] => None
    | p :: rest =>
        let g := deliver (signals p) g in
        if GetMessageW p >? 0 then message_loop g rest else Some g
    end
  else Some g.

(** [POINT pt{}; GetCursorPos(&pt); return PidFromPoint(pt);] *)
Definition HoverSelectPid (os : Win32) : DWORD :=
  let pt :=
    match GetCursorPos os with
    | Some p => p
    | None => mkPOINT 0 0
    end in
  PidFromPoint os pt.

(** The control events the handler acts on. *)
Definition recognized (type : DWORD) : Prop :=
  type = CTRL_C_EVENT \/ type = CTRL_BREAK_EVENT \/ type = CTRL_CLOSE_EVENT.

(** A step of [wmain] either leaves the program with an exit code or goes
    on with a value. *)
Inductive Step (A : Type) :=
| Exit (code : Z)
| Continue (a : A).
Arguments Exit {A} code.
Arguments Continue {A} a.

(** What the user typed, as [std::wcin >> choice] sees it: the [size_t]
    extracted, or [None] when the extraction fails. *)
Record Console := mkConsole {
  cin_choice : option Z
}.

Definition default_entry : AppEntry := mkAppEntry NULL 0 [] [].

Section Program.
Context {sorter : StdSort}.

Definition EnumerateApps (os : Win32) : list AppEntry :=
  let apps := EnumWindows (EnumWindowsProc os) (TopLevelWindows os) [] in
  std_sort app_less apps.

(** [wmain], part 1: enumerate candidates and let the user pick.  [os0] is
    the system when the windows are enumerated, [os1] when the cursor is
    sampled for hover-select. *)
Definition wmain_select (os0 os1 : Win32) (cin : Console) : Step DWORD :=
  let apps := EnumerateApps os0 in
  let hover :=
    let p := HoverSelectPid os1 in
    if p =? 0 then Exit 2 else Continue p in
  match apps with
  | _ :: _ =>
      match cin_choice cin with
      | None => Exit 2
      | Some choice =>
          if choice =? 0 then hover
          else if (1 <=? choice) && (choice <=? Z.of_nat (length apps)) then
            Continue (pid (nth (Z.to_nat (choice - 1)) apps default_entry))
          else Exit 2
      end
  | [] => hover
  end.

(** [wmain]: the exit code, [None] when the program never leaves its
    message loop.  [early] are the control events that arrive between
    [SetConsoleCtrlHandler] and the installation of the hook, [hook] is what
    [SetWindowsHookExW] returns, [pumps] answers the message loop. *)
Definition wmain (os0 os1 : Win32) (cin : Console) (early : list DWORD)
    (hook : HHOOK) (pumps : list Pump) : option Z :=
  match wmain_select os0 os1 cin with
  | Exit code => Some code
  | Continue target =>
      let g := mkGlobals NULL target true in
      let g := deliver early g in
      let g := mkGlobals hook (g_targetPid g) (g_running g) in
      if g_mouseHook g =? NULL then Some 3
      else
        match message_loop g pumps with
        | None => None
        | Some _ => Some 0
        end
  end.

End Program.

(** ** Notions used in the statements *)

(** The entry the callback builds for a window. *)
Definition entry_of (os : Win32) (h : HWND) : AppEntry :=
  mkAppEntry h (pid_of_window os h)
    (GetProcessNameFromPid os (pid_of_window os h)) (window_title os h).

(** [e] stands for the first visible window of its process in [hs]. *)
Definition first_window_of (os : Win32) (hs : list HWND) (e : AppEntry)
    : Prop :=
  e = entry_of os (hwnd e) /\
  IsWindowVisible os (hwnd e) = true /\
  pid e <> 0 /\
  exists before after,
    hs = before ++ hwnd e :: after /\
    forall h, In h before -> IsWindowVisible os h = true ->
              pid_of_window os h <> pid e.

(** The first [len] characters of a window's text, [len] being the length
    the system reported: what [GetWindowTextW] retrieves as long as the
    size of the buffer survives the cast to [int]. *)
Definition retrieved_text (os : Win32) (h : HWND) : wstring :=
  firstn (Z.to_nat (GetWindowTextLengthW os h)) (WindowText os h).

(** Entry [a] may stand before entry [b]: its process name is smaller
    under [_wcsicmp], or the names compare equal and its title is not
    greater. *)
Definition name_then_title (a b : AppEntry) : Prop :=
  _wcsicmp (processName a) (processName b) < 0 \/
  (_wcsicmp (processName a) (processName b) = 0 /\
   _wcsicmp (windowTitle a) (windowTitle b) <= 0).

(** The point [HoverSelectPid] hands to the resolver. *)
Definition sampled_cursor (os : Win32) : POINT :=
  match GetCursorPos os with
  | Some p => p
  | None => mkPOINT 0 0
  end.

(** ** Console input

    The characters still pending on [std::wcin], as a list. *)

Definition newline : wchar := 10.

(** [std::wcin.ignore(max, L'\n')]: characters are extracted and dropped
    up to and including the first newline, or until the input ends. *)
Fixpoint FlushInputLine (input : wstring) : wstring :=
  match input with
  | [] => []
  | c :: rest => if c =? newline then rest else FlushInputLine rest
  end.

(** [std::getline(std::wcin, dummy)]: the characters before the first
    newline, and the input left after it. *)
Fixpoint getline (input : wstring) : wstring * wstring :=
  match input with
  | [] => ([], [])
  | c :: rest =>
      if c =? newline then ([], rest)
      else let '(line, remaining) := getline rest in (c :: line, remaining)
  end.

(** ** Further notions used in the statements *)

(** The globals once a recognized control event has been handled. *)
Definition stopped (g : Globals) : Globals :=
  mkGlobals NULL (g_targetPid g) false.

(** An entry with its two strings in lower case. *)
Definition lower_entry (e : AppEntry) : AppEntry :=
  mkAppEntry (hwnd e) (pid e) (map towlower (processName e))
             (map towlower (windowTitle e)).

(** No two different entries of the list compare equivalent. *)
Definition tie_free (l : list AppEntry) : Prop :=
  forall a b, In a l -> In b l -> a <> b ->
              app_less a b = true \/ app_less b a = true.

(** The characters [GetWindowTextW] copies when called as in
    [EnumWindowsProc], in terms of the length reported before. *)
Definition copied_text (os : Win32) (h : HWND) : wstring :=
  let len := GetWindowTextLengthW os h in
  if (len >? 0) && (int_of_size_t (len + 1) >? 0)
  then firstn (Z.to_nat (int_of_size_t (len + 1) - 1)) (WindowText os h)
  else [].

(** ** The order of the list, stated apart from the code

    The order the list is claimed to have is written here without the
    program's comparison functions: strings are compared in ascending
    lexicographic order of their code units, as a C function reads them
    (up to and including the terminator), after each code unit has been
    put through a case folding. *)

(** First position of a code unit in a string. *)
Fixpoint position (c : wchar) (s : wstring) : option nat :=
  match s with
  | [] => None
  | x :: s' =>
      if x =? c then Some O
      else match position c s' with
           | Some i => Some (S i)
           | None => None
           end
  end.

(** The folding that knows the letters of ASCII only. *)
Definition fold_ascii_case (c : wchar) : wchar :=
  match position c (L "ABCDEFGHIJKLMNOPQRSTUVWXYZ") with
  | Some i => nth i (L "abcdefghijklmnopqrstuvwxyz") c
  | None => c
  end.

(** Modelled from the spec: a comparison that is case-insensitive beyond
    ASCII folds at least the capital letters of Latin-1 as well (U+00C0 to
    U+00DE but for the multiplication sign U+00D7, each 32 below its small
    letter). *)
Definition fold_latin1_case (c : wchar) : wchar :=
  if (192 <=? c) && (c <=? 222) && negb (c =? 215) then c + 32
  else fold_ascii_case c.

(** The code units a C function reads from [c_str()]: those before the
    first terminator, and the terminator. *)
Fixpoint c_string (s : wstring) : list wchar :=
  match s with
  | [] => [0]
  | x :: s' => if x =? 0 then [0] else x :: c_string s'
  end.

(** Ascending lexicographic order on sequences of code units. *)
Fixpoint lex_lt (a b : list Z) : Prop :=
  match a, b with
  | _, [] => False
  | [], _ :: _ => True
  | x :: a', y :: b' => x < y \/ (x = y /\ lex_lt a' b')
  end.

Definition folded (fold : wchar -> wchar) (s : wstring) : list wchar :=
  map fold (c_string s).

(** Entry [a] may stand before entry [b] in a list sorted by folded process
    name and then by folded title. *)
Definition ordered_before (fold : wchar -> wchar) (a b : AppEntry) : Prop :=
  lex_lt (folded fold (processName a)) (folded fold (processName b)) \/
  (folded fold (processName a) = folded fold (processName b) /\
   (lex_lt (folded fold (windowTitle a)) (folded fold (windowTitle b)) \/
    folded fold (windowTitle a) = folded fold (windowTitle b))).

(** The two path separators [GetProcessNameFromPid] looks for. *)
Definition backslash : wchar := Z.of_nat (nat_of_ascii "\"%char).
Definition slash : wchar := Z.of_nat (nat_of_ascii "/"%char).

(** A system in which the module-name query fails and the image path is
    all there is to name a process. *)
Definition desk_paths : Win32 := {|
  GetForegroundWindow := NULL;
  WindowFromPoint := fun _ => NULL;
  GetAncestor_GA_ROOT := fun _ => NULL;
  GetWindowThreadProcessId := fun _ => None;
  TopLevelWindows := [];
  IsWindowVisible := fun _ => false;
  GetWindowTextLengthW := fun _ => 0;
  WindowText := fun _ => [];
  OpenProcess := fun _ => true;
  GetModuleBaseNameW := fun _ => None;
  QueryFullProcessImageNameW := fun _ =>
    Some (L "C:\Games/Arma 3\bin/arma3_x64.exe");
  GetCursorPos := None
|}.

(** ** A concrete desktop

    Eight top-level windows: a game (pid 100), a chat client (pid 200), two
    windows of one process (pid 300), a window whose title is a single
    space (pid 400), a hidden window (pid 500), a window whose process
    cannot be resolved and a window without a title (pid 600).  The game
    has the focus. *)

Definition table {B} (d : B) (rows : list (Z * B)) (k : Z) : B :=
  match find (fun kv => fst kv =? k) rows with
  | Some kv => snd kv
  | None => d
  end.

Definition desk_text : HWND -> wstring :=
  table [] [(10, L "Game"); (11, L "Chat"); (12, L "Main");
            (13, L "Settings"); (14, L " "); (15, L "Hidden");
            (16, L "Orphan")].

Definition desk : Win32 := {|
  GetForegroundWindow := 10;
  WindowFromPoint := fun p =>
    if pt_x p <? 100 then 10 else if pt_x p <? 200 then 11 else NULL;
  GetAncestor_GA_ROOT := fun h => h;
  GetWindowThreadProcessId :=
    table None [(10, Some 100); (11, Some 200); (12, Some 300);
                (13, Some 300); (14, Some 400); (15, Some 500);
                (17, Some 600)];
  TopLevelWindows := [10; 11; 12; 13; 14; 15; 16; 17];
  IsWindowVisible := fun h => negb (h =? 15);
  GetWindowTextLengthW := fun h => Z.of_nat (length (desk_text h));
  WindowText := desk_text;
  OpenProcess := fun _ => true;
  GetModuleBaseNameW :=
    table None [(100, Some (L "arma3.exe")); (200, Some (L "Discord.exe"));
                (300, Some (L "chrome.exe")); (400, Some (L "Blank.exe"));
                (600, Some (L "borderless.exe"))];
  QueryFullProcessImageNameW := fun _ => None;
  GetCursorPos := Some (mkPOINT 50 50)
|}.

(** Another system: other handles, the same process in front, and a
    window of pid 200 wherever the cursor is, except beyond x = 1000 where
    there is nothing. *)
Definition desk_alt : Win32 := {|
  GetForegroundWindow := 20;
  WindowFromPoint := fun p => if pt_x p <? 1000 then 22 else NULL;
  GetAncestor_GA_ROOT := table NULL [(22, 21)];
  GetWindowThreadProcessId := table None [(20, Some 100); (21, Some 200)];
  TopLevelWindows := [20; 21];
  IsWindowVisible := fun _ => true;
  GetWindowTextLengthW := fun _ => 0;
  WindowText := fun _ => [];
  OpenProcess := fun _ => false;
  GetModuleBaseNameW := fun _ => None;
  QueryFullProcessImageNameW := fun _ => None;
  GetCursorPos := Some (mkPOINT 2000 0)
|}.

(** Two processes whose names differ in the case of one letter outside
    ASCII: U+00C9 and U+00E9, the capital and the small e with acute. *)
Definition desk_accents : Win32 := {|
  GetForegroundWindow := NULL;
  WindowFromPoint := fun _ => NULL;
  GetAncestor_GA_ROOT := fun _ => NULL;
  GetWindowThreadProcessId := table None [(1, Some 1); (2, Some 2)];
  TopLevelWindows := [1; 2];
  IsWindowVisible := fun _ => true;
  GetWindowTextLengthW := fun _ => 1;
  WindowText := table [] [(1, L "b"); (2, L "a")];
  OpenProcess := fun _ => true;
  GetModuleBaseNameW :=
    table None [(1, Some (201 :: L ".exe")); (2, Some (233 :: L ".exe"))];
  QueryFullProcessImageNameW := fun _ => None;
  GetCursorPos := None
|}.

Definition guarding (target : DWORD) : Globals := mkGlobals 77 target true.

Definition wheel_at (x y : Z) : MSLLHOOKSTRUCT :=
  mkMSLL (mkPOINT x y) 7864320 0 1000 0.

(** * Properties of the hook procedure *)

Section HookFacts.
Variables (os : Win32) (g : Globals).
Variables (nCode : Z) (wParam : WPARAM) (lParam : MSLLHOOKSTRUCT).

#[local] Abbreviation run := (LowLevelMouseProc os g nCode wParam lParam).
#[local] Abbreviation next :=
  (CallNextHookEx (g_mouseHook g) nCode wParam lParam).

(** The procedure has two outcomes only, and forwarding hands on exactly
    the arguments it was called with. *)
Lemma LowLevelMouseProc_cases : run = Return1 \/ run = next.
Proof.
  unfold LowLevelMouseProc.
  repeat match goal with
         | |- context [if ?b then _ else _] => destruct b
         end; auto.
Qed.

(** The arm of the procedure that is reached for a wheel event under an
    armed target. *)
Lemma LowLevelMouseProc_armed :
  nCode = HC_ACTION -> g_targetPid g <> 0 -> is_wheel wParam = true ->
  run = if (foreground_pid os =? g_targetPid g)
           && negb (PidFromPoint os (pt lParam) =? g_targetPid g)
        then Return1 else next.
Proof.
  intros Hc Ht Hw. unfold LowLevelMouseProc.
  rewrite Hw. apply Z.eqb_eq in Hc. rewrite Hc.
  apply Z.eqb_neq in Ht. rewrite Ht. simpl.
  destruct (foreground_pid os =? g_targetPid g); simpl; [|reflexivity].
  destruct (PidFromPoint os (pt lParam) =? g_targetPid g); reflexivity.
Qed.

Lemma is_wheel_true :
  is_wheel wParam = true <->
  wParam = WM_MOUSEWHEEL \/ wParam = WM_MOUSEHWHEEL.
Proof.
  unfold is_wheel. rewrite orb_true_iff, !Z.eqb_eq. tauto.
Qed.

Lemma is_wheel_false :
  is_wheel wParam = false <->
  wParam <> WM_MOUSEWHEEL /\ wParam <> WM_MOUSEHWHEEL.
Proof.
  unfold is_wheel. rewrite orb_false_iff, !Z.eqb_neq. tauto.
Qed.

End HookFacts.

(** No window under the point: the resolver answers 0. *)
Lemma PidFromPoint_no_window os p :
  WindowFromPoint os p = NULL -> PidFromPoint os p = 0.
Proof.
  intros H. unfold PidFromPoint. rewrite H. reflexivity.
Qed.

(** The verdict as a function of the five values the procedure looks at. *)
Lemma verdict_LowLevelMouseProc os g nCode wParam lParam :
  verdict (LowLevelMouseProc os g nCode wParam lParam) =
  if (nCode =? HC_ACTION) && negb (g_targetPid g =? 0)
     && is_wheel wParam
     && (foreground_pid os =? g_targetPid g)
     && negb (PidFromPoint os (pt lParam) =? g_targetPid g)
  then Swallow else Forward.
Proof.
  unfold LowLevelMouseProc.
  destruct ((nCode =? HC_ACTION) && negb (g_targetPid g =? 0)); simpl;
    [|reflexivity].
  destruct (is_wheel wParam); simpl; [|reflexivity].
  destruct (foreground_pid os =? g_targetPid g); simpl; [|reflexivity].
  destruct (PidFromPoint os (pt lParam) =? g_targetPid g); reflexivity.
Qed.

(** C1. For a wheel event handled (hook code [HC_ACTION]) while a target is
    set, the procedure swallows the event exactly when the foreground
    window's process is the target and the process resolved under the
    event's point is not the target, no window under the point counting as
    not the target; in every other case it forwards the event with the
    arguments it received. *)
Theorem wheel_swallowed_iff os g nCode wParam lParam :
  nCode = HC_ACTION ->
  wParam = WM_MOUSEWHEEL \/ wParam = WM_MOUSEHWHEEL ->
  g_targetPid g <> 0 ->
  (LowLevelMouseProc os g nCode wParam lParam = Return1 <->
     foreground_pid os = g_targetPid g /\
     (WindowFromPoint os (pt lParam) = NULL \/
      PidFromPoint os (pt lParam) <> g_targetPid g)) /\
  (foreground_pid os <> g_targetPid g \/
   PidFromPoint os (pt lParam) = g_targetPid g ->
   LowLevelMouseProc os g nCode wParam lParam =
     CallNextHookEx (g_mouseHook g) nCode wParam lParam).
Proof.
  intros Hc Hw Ht.
  apply is_wheel_true in Hw.
  rewrite (LowLevelMouseProc_armed os g nCode wParam lParam Hc Ht Hw).
  destruct (Z.eqb_spec (foreground_pid os) (g_targetPid g)) as [Hf|Hf];
  destruct (Z.eqb_spec (PidFromPoint os (pt lParam)) (g_targetPid g))
    as [Hu|Hu]; simpl; split.
  - split; [discriminate|].
    intros [_ [Hn|Hn]]; [|contradiction].
    apply PidFromPoint_no_window in Hn. congruence.
  - reflexivity.
  - split; auto.
  - intros [H|H]; contradiction.
  - split; [discriminate|]. intros [H _]; contradiction.
  - reflexivity.
  - split; [discriminate|]. intros [H _]; contradiction.
  - reflexivity.
Qed.

Lemma wheel_swallowed_iff_witness :
  LowLevelMouseProc desk (guarding 100) HC_ACTION WM_MOUSEWHEEL
    (wheel_at 150 50) = Return1 /\
  LowLevelMouseProc desk (guarding 100) HC_ACTION WM_MOUSEWHEEL
    (wheel_at 50 50) =
  CallNextHookEx 77 HC_ACTION WM_MOUSEWHEEL (wheel_at 50 50).
Proof.
  split.
  - apply (wheel_swallowed_iff desk (guarding 100) HC_ACTION WM_MOUSEWHEEL
             (wheel_at 150 50)).
    + reflexivity.
    + left; reflexivity.
    + simpl; lia.
    + split; [reflexivity|]. right. vm_compute. discriminate.
  - apply (wheel_swallowed_iff desk (guarding 100) HC_ACTION WM_MOUSEWHEEL
             (wheel_at 50 50)).
    + reflexivity.
    + left; reflexivity.
    + simpl; lia.
    + right. reflexivity.
Defined.

(** C2, as the code has it.  When the target owns the foreground window and
    no window lies under the event's point, the resolver answers 0, which
    is not the target, and the wheel event is swallowed. *)
Theorem no_window_under_point_swallowed os g nCode wParam lParam :
  nCode = HC_ACTION ->
  wParam = WM_MOUSEWHEEL \/ wParam = WM_MOUSEHWHEEL ->
  g_targetPid g <> 0 ->
  foreground_pid os = g_targetPid g ->
  WindowFromPoint os (pt lParam) = NULL ->
  LowLevelMouseProc os g nCode wParam lParam = Return1 /\
  verdict (LowLevelMouseProc os g nCode wParam lParam) = Swallow.
Proof.
  intros Hc Hw Ht Hf Hn.
  apply is_wheel_true in Hw.
  rewrite (LowLevelMouseProc_armed os g nCode wParam lParam Hc Ht Hw).
  rewrite (PidFromPoint_no_window _ _ Hn), Hf, Z.eqb_refl.
  assert (H0 : (0 =? g_targetPid g) = false) by (apply Z.eqb_neq; lia).
  rewrite H0. simpl. auto.
Qed.

Lemma no_window_under_point_swallowed_witness :
  verdict (LowLevelMouseProc desk (guarding 100) HC_ACTION WM_MOUSEHWHEEL
             (wheel_at 500 50)) = Swallow.
Proof.
  apply (no_window_under_point_swallowed desk (guarding 100) HC_ACTION
           WM_MOUSEHWHEEL (wheel_at 500 50)).
  - reflexivity.
  - right; reflexivity.
  - simpl; lia.
  - reflexivity.
  - reflexivity.
Defined.

(** C2 as stated fails: with the game (pid 100) focused and protected and
    the wheel turned over a point where there is no window, the event is
    not forwarded. *)
Lemma fail_open_counterexample :
  g_targetPid (guarding 100) <> 0 /\
  foreground_pid desk = g_targetPid (guarding 100) /\
  WindowFromPoint desk (pt (wheel_at 500 50)) = NULL /\
  LowLevelMouseProc desk (guarding 100) HC_ACTION WM_MOUSEWHEEL
    (wheel_at 500 50) = Return1 /\
  verdict (LowLevelMouseProc desk (guarding 100) HC_ACTION WM_MOUSEWHEEL
             (wheel_at 500 50)) <> Forward.
Proof.
  repeat split; try reflexivity; vm_compute; discriminate.
Qed.

(** C3. An event that is neither a vertical nor a horizontal wheel event is
    forwarded with the arguments received, whatever the target, the
    foreground window and the cursor position are. *)
Theorem non_wheel_forwarded os g nCode wParam lParam :
  wParam <> WM_MOUSEWHEEL -> wParam <> WM_MOUSEHWHEEL ->
  LowLevelMouseProc os g nCode wParam lParam =
    CallNextHookEx (g_mouseHook g) nCode wParam lParam.
Proof.
  intros H1 H2. unfold LowLevelMouseProc.
  replace (is_wheel wParam) with false
    by (symmetry; apply is_wheel_false; auto).
  destruct ((nCode =? HC_ACTION) && negb (g_targetPid g =? 0)); reflexivity.
Qed.

Lemma non_wheel_forwarded_witness :
  LowLevelMouseProc desk (guarding 100) HC_ACTION WM_MOUSEMOVE
    (wheel_at 150 50) =
  CallNextHookEx 77 HC_ACTION WM_MOUSEMOVE (wheel_at 150 50).
Proof.
  apply (non_wheel_forwarded desk (guarding 100) HC_ACTION WM_MOUSEMOVE
           (wheel_at 150 50)); vm_compute; discriminate.
Defined.

(** C4. While no target has been chosen ([g_targetPid] is 0) every event,
    wheel events included, is forwarded. *)
Theorem no_target_forwarded os g nCode wParam lParam :
  g_targetPid g = 0 ->
  LowLevelMouseProc os g nCode wParam lParam =
    CallNextHookEx (g_mouseHook g) nCode wParam lParam.
Proof.
  intros H. unfold LowLevelMouseProc. rewrite H.
  rewrite andb_false_r. reflexivity.
Qed.

Lemma no_target_forwarded_witness :
  LowLevelMouseProc desk (guarding 0) HC_ACTION WM_MOUSEWHEEL
    (wheel_at 150 50) =
  CallNextHookEx 77 HC_ACTION WM_MOUSEWHEEL (wheel_at 150 50).
Proof.
  apply (no_target_forwarded desk (guarding 0) HC_ACTION WM_MOUSEWHEEL
           (wheel_at 150 50)).
  reflexivity.
Defined.

(** C8. A call whose hook code is not [HC_ACTION] hands the event to the
    next hook, whatever the event, the target and the windows are. *)
Theorem non_action_code_forwarded os g nCode wParam lParam :
  nCode <> HC_ACTION ->
  LowLevelMouseProc os g nCode wParam lParam =
    CallNextHookEx (g_mouseHook g) nCode wParam lParam.
Proof.
  intros H. unfold LowLevelMouseProc.
  apply Z.eqb_neq in H. rewrite H. reflexivity.
Qed.

Lemma non_action_code_forwarded_witness :
  LowLevelMouseProc desk (guarding 100) (-1) WM_MOUSEWHEEL
    (wheel_at 150 50) =
  CallNextHookEx 77 (-1) WM_MOUSEWHEEL (wheel_at 150 50).
Proof.
  apply (non_action_code_forwarded desk (guarding 100) (-1) WM_MOUSEWHEEL
           (wheel_at 150 50)).
  vm_compute; discriminate.
Defined.

(** C9. Two calls that agree on the hook code, on whether the event is a
    wheel event, on the foreground process id, on the process id resolved
    under the event's point and on the target reach the same verdict,
    whatever else differs between them (the rest of the system state, the
    hook handle, the other fields of the event). *)
Theorem verdict_deterministic os1 g1 nCode1 wParam1 lParam1
                              os2 g2 nCode2 wParam2 lParam2 :
  nCode1 = nCode2 ->
  is_wheel wParam1 = is_wheel wParam2 ->
  foreground_pid os1 = foreground_pid os2 ->
  PidFromPoint os1 (pt lParam1) = PidFromPoint os2 (pt lParam2) ->
  g_targetPid g1 = g_targetPid g2 ->
  verdict (LowLevelMouseProc os1 g1 nCode1 wParam1 lParam1) =
  verdict (LowLevelMouseProc os2 g2 nCode2 wParam2 lParam2).
Proof.
  intros Hc Hw Hf Hu Ht.
  rewrite !verdict_LowLevelMouseProc.
  rewrite Hc, Hw, Hf, Hu, Ht. reflexivity.
Qed.

Lemma verdict_deterministic_witness :
  verdict (LowLevelMouseProc desk (guarding 100) HC_ACTION WM_MOUSEWHEEL
             (wheel_at 150 50)) =
  verdict (LowLevelMouseProc desk_alt (mkGlobals 5 100 false) HC_ACTION
             WM_MOUSEHWHEEL (wheel_at 0 0)).
Proof.
  apply (verdict_deterministic
           desk (guarding 100) HC_ACTION WM_MOUSEWHEEL (wheel_at 150 50)
           desk_alt (mkGlobals 5 100 false) HC_ACTION WM_MOUSEHWHEEL
           (wheel_at 0 0)); reflexivity.
Defined.

(** Scenarios A, B and C of the specification on the concrete desktop,
    where the game (pid 100) has the focus: the game protected and the
    wheel over the chat client, the game protected and the wheel over the
    game itself, and a protected process (pid 200) that is not the one in
    front. *)
Example scenarios_A_B_C :
  verdict (LowLevelMouseProc desk (guarding 100) HC_ACTION WM_MOUSEWHEEL
             (wheel_at 150 50)) = Swallow /\
  verdict (LowLevelMouseProc desk (guarding 100) HC_ACTION WM_MOUSEWHEEL
             (wheel_at 50 50)) = Forward /\
  verdict (LowLevelMouseProc desk (guarding 200) HC_ACTION WM_MOUSEWHEEL
             (wheel_at 150 50)) = Forward.
Proof. repeat split; reflexivity. Qed.

(** * The comparison of [EnumerateApps] is a strict weak ordering *)

Ltac bool_to_prop :=
  repeat match goal with
         | H : (_ && _) = true |- _ => apply andb_true_iff in H; destruct H
         | H : (_ && _) = false |- _ => apply andb_false_iff in H; destruct H
         | H : negb _ = true |- _ => apply negb_true_iff in H
         | H : negb _ = false |- _ => apply negb_false_iff in H
         | H : (_ =? _) = true |- _ => apply Z.eqb_eq in H
         | H : (_ =? _) = false |- _ => apply Z.eqb_neq in H
         | H : (_ <? _) = true |- _ => apply Z.ltb_lt in H
         | H : (_ <? _) = false |- _ => apply Z.ltb_ge in H
         end.

Ltac split_ifs :=
  repeat match goal with
         | H : context [if ?b then _ else _] |- _ => destruct b eqn:?
         | |- context [if ?b then _ else _] => destruct b eqn:?
         end.

Lemma wcsicmp_antisym a : forall b, _wcsicmp b a = - _wcsicmp a b.
Proof.
  induction a as [|x a IH]; intros [|y b]; simpl; try lia.
  generalize (towlower x) (towlower y); intros f l.
  split_ifs; bool_to_prop; try lia; auto.
Qed.

Lemma wcsicmp_refl a : _wcsicmp a a = 0.
Proof. pose proof (wcsicmp_antisym a a). lia. Qed.

Lemma wcsicmp_le_trans a :
  forall b c, _wcsicmp a b <= 0 -> _wcsicmp b c <= 0 -> _wcsicmp a c <= 0.
Proof.
  induction a as [|x a IH]; intros [|y b] [|z c]; simpl;
    try generalize (towlower x); try generalize (towlower y);
    try generalize (towlower z); intros;
    split_ifs; bool_to_prop; try lia; eauto.
Qed.

Ltac order_facts cmp x y z :=
  pose proof (wcsicmp_antisym (cmp x) (cmp y));
  pose proof (wcsicmp_antisym (cmp y) (cmp z));
  pose proof (wcsicmp_antisym (cmp x) (cmp z));
  pose proof (wcsicmp_le_trans (cmp x) (cmp y) (cmp z));
  pose proof (wcsicmp_le_trans (cmp x) (cmp z) (cmp y));
  pose proof (wcsicmp_le_trans (cmp y) (cmp x) (cmp z));
  pose proof (wcsicmp_le_trans (cmp y) (cmp z) (cmp x));
  pose proof (wcsicmp_le_trans (cmp z) (cmp x) (cmp y));
  pose proof (wcsicmp_le_trans (cmp z) (cmp y) (cmp x)).

(** [app_less] in terms of the two comparisons. *)
Lemma app_less_true a b :
  app_less a b = true <->
  _wcsicmp (processName a) (processName b) < 0 \/
  (_wcsicmp (processName a) (processName b) = 0 /\
   _wcsicmp (windowTitle a) (windowTitle b) < 0).
Proof.
  unfold app_less.
  destruct (Z.eqb_spec (_wcsicmp (processName a) (processName b)) 0);
    simpl; rewrite Z.ltb_lt; lia.
Qed.

Lemma app_less_false a b :
  app_less b a = false <->
  _wcsicmp (processName a) (processName b) < 0 \/
  (_wcsicmp (processName a) (processName b) = 0 /\
   _wcsicmp (windowTitle a) (windowTitle b) <= 0).
Proof.
  pose proof (wcsicmp_antisym (processName a) (processName b)).
  pose proof (wcsicmp_antisym (windowTitle a) (windowTitle b)).
  unfold app_less.
  destruct (Z.eqb_spec (_wcsicmp (processName b) (processName a)) 0);
    simpl; rewrite Z.ltb_ge; lia.
Qed.

Lemma app_less_strict_weak_order : strict_weak_order app_less.
Proof.
  split; [|split].
  - intros x. apply app_less_false. right.
    rewrite !wcsicmp_refl. lia.
  - intros x y z Hxy Hyz.
    apply app_less_true in Hxy. apply app_less_true in Hyz.
    apply app_less_true.
    order_facts processName x y z. order_facts windowTitle x y z. lia.
  - intros x y z H1 H2 H3 H4.
    apply app_less_false in H1, H2, H3, H4.
    rewrite !app_less_false.
    order_facts processName x y z. order_facts windowTitle x y z. lia.
Qed.

Section InsertionSort.
Context {A : Type} (less : A -> A -> bool).
Hypothesis less_swo : strict_weak_order less.

#[local] Abbreviation not_after := (fun x y => less y x = false).

Lemma less_asym x y : less x y = true -> less y x = false.
Proof.
  destruct less_swo as (Hirr & Htr & _). intros H.
  destruct (less y x) eqn:E; [|reflexivity].
  rewrite <- (Hirr x). symmetry. eauto.
Qed.

Lemma not_after_trans x y z :
  less y x = false -> less z y = false -> less z x = false.
Proof.
  destruct less_swo as (Hirr & Htr & Heq). intros Hxy Hyz.
  destruct (less z x) eqn:Hzx; [|reflexivity].
  destruct (less x y) eqn:E1.
  - rewrite (Htr z x y Hzx E1) in Hyz. discriminate.
  - destruct (less y z) eqn:E2.
    + rewrite (Htr y z x E2 Hzx) in Hxy. discriminate.
    + destruct (Heq x y z E1 Hxy E2 Hyz) as [_ H]. congruence.
Qed.

Lemma insert_sorted_permutation x l :
  Permutation (x :: l) (insert_sorted less x l).
Proof.
  induction l as [|y l IH]; simpl; [reflexivity|].
  destruct (less x y); [reflexivity|].
  rewrite perm_swap. apply perm_skip, IH.
Qed.

Lemma insertion_sort_permutation l :
  Permutation l (insertion_sort less l).
Proof.
  induction l as [|x l IH]; simpl; [constructor|].
  rewrite <- insert_sorted_permutation. apply perm_skip, IH.
Qed.

Lemma insert_sorted_sorted x l :
  StronglySorted not_after l ->
  StronglySorted not_after (insert_sorted less x l).
Proof.
  induction 1 as [|y l Hs IH Hall]; simpl.
  - repeat constructor.
  - destruct (less x y) eqn:E.
    + constructor; [constructor; assumption|].
      constructor; [apply less_asym, E|].
      rewrite Forall_forall in *. intros z Hz.
      apply not_after_trans with y; auto using less_asym.
    + constructor; [exact IH|].
      rewrite Forall_forall in *. intros z Hz.
      apply (Permutation_in _ (Permutation_sym (insert_sorted_permutation x l)))
        in Hz.
      destruct Hz as [<-|Hz]; auto.
Qed.

Lemma insertion_sort_sorted l :
  StronglySorted not_after (insertion_sort less l).
Proof.
  induction l as [|x l IH]; simpl; [constructor|].
  apply insert_sorted_sorted, IH.
Qed.

End InsertionSort.

#[export] Instance insertion_sorter : StdSort := {|
  std_sort := @insertion_sort;
  std_sort_permutation := fun A less l H => insertion_sort_permutation less l;
  std_sort_sorted := fun A less l H => insertion_sort_sorted less H l
|}.

(** * Properties of the enumerator *)

Section EnumFacts.
Variable os : Win32.

#[local] Abbreviation collect :=
  (fun hs => EnumWindows (EnumWindowsProc os) hs []).

Lemma EnumWindowsProc_continues h out :
  fst (EnumWindowsProc os h out) = true.
Proof.
  unfold EnumWindowsProc.
  repeat match goal with
         | |- context [if ?b then _ else _] => destruct b
         end; reflexivity.
Qed.

Lemma EnumWindows_app hs h : forall out,
  EnumWindows (EnumWindowsProc os) (hs ++ [h]) out =
  snd (EnumWindowsProc os h (EnumWindows (EnumWindowsProc os) hs out)).
Proof.
  induction hs as [|h0 hs IH]; intros out; simpl.
  - pose proof (EnumWindowsProc_continues h out) as Hc.
    destruct (EnumWindowsProc os h out) as [c out']. simpl in *.
    rewrite Hc. reflexivity.
  - pose proof (EnumWindowsProc_continues h0 out) as Hc.
    destruct (EnumWindowsProc os h0 out) as [c out']. simpl in *.
    rewrite Hc. apply IH.
Qed.

Lemma existsb_pid_false p (out : list AppEntry) :
  existsb (fun e => pid e =? p) out = false <-> ~ In p (map pid out).
Proof.
  rewrite <- not_true_iff_false, existsb_exists, in_map_iff.
  split; intros H [e He]; apply H; exists e.
  - destruct He as [He1 He2]. split; [exact He2|]. apply Z.eqb_eq, He1.
  - destruct He as [He1 He2]. split; [apply Z.eqb_eq, He2|exact He1].
Qed.

(** One call of the callback: either the vector is left alone, or the
    window's entry is pushed at its end. *)
Lemma EnumWindowsProc_step h out :
  (snd (EnumWindowsProc os h out) = out /\
   (IsWindowVisible os h = false \/ pid_of_window os h = 0 \/
    In (pid_of_window os h) (map pid out))) \/
  (snd (EnumWindowsProc os h out) = out ++ [entry_of os h] /\
   IsWindowVisible os h = true /\ pid_of_window os h <> 0 /\
   ~ In (pid_of_window os h) (map pid out)).
Proof.
  unfold EnumWindowsProc.
  destruct (IsWindowVisible os h); simpl; [|left; auto].
  destruct (Z.eqb_spec (pid_of_window os h) 0) as [E|E]; [left; auto|].
  destruct (existsb _ out) eqn:Ex.
  - left. split; [reflexivity|]. right; right.
    destruct (in_dec Z.eq_dec (pid_of_window os h) (map pid out)); auto.
    apply existsb_pid_false in n. congruence.
  - right. apply existsb_pid_false in Ex. auto.
Qed.

Lemma first_window_of_snoc hs h e :
  first_window_of os hs e -> first_window_of os (hs ++ [h]) e.
Proof.
  intros (He & Hv & Hp & before & after & Hs & Hb).
  repeat split; auto.
  exists before, (after ++ [h]). split; [|exact Hb].
  rewrite Hs, <- app_assoc. reflexivity.
Qed.

Lemma first_window_of_new hs h :
  IsWindowVisible os h = true -> pid_of_window os h <> 0 ->
  (forall h', In h' hs -> IsWindowVisible os h' = true ->
              pid_of_window os h' <> pid_of_window os h) ->
  first_window_of os (hs ++ [h]) (entry_of os h).
Proof.
  intros Hv Hp Hb. split; [reflexivity|]. split; [exact Hv|].
  split; [exact Hp|]. exists hs, []. split; [reflexivity|exact Hb].
Qed.

Lemma collect_invariant hs :
  NoDup (map pid (collect hs)) /\
  (forall e, In e (collect hs) -> first_window_of os hs e) /\
  (forall h, In h hs -> IsWindowVisible os h = true ->
             pid_of_window os h <> 0 ->
             In (pid_of_window os h) (map pid (collect hs))).
Proof.
  induction hs as [|h hs (Hnd & Hfirst & Hall)] using rev_ind.
  - simpl. split; [constructor|]. split; intros ? [].
  - rewrite EnumWindows_app.
    destruct (EnumWindowsProc_step h (collect hs))
      as [(-> & Hskip)|(-> & Hv & Hp & Hnew)].
    + split; [exact Hnd|]. split.
      * intros e He. apply first_window_of_snoc; auto.
      * intros h' Hin Hv' Hp'. apply in_app_or in Hin.
        destruct Hin as [Hin|[<-|[]]]; auto.
        destruct Hskip as [Hs|[Hs|Hs]]; congruence.
    + split; [|split].
      * rewrite map_app. simpl.
        apply NoDup_app; [exact Hnd|repeat constructor; intros []|].
        intros p Hin [<-|[]]. apply Hnew, Hin.
      * intros e He. apply in_app_or in He.
        destruct He as [He|[<-|[]]];
          [apply first_window_of_snoc, Hfirst, He|].
        apply first_window_of_new; auto.
        intros h' Hin Hv' Heq. apply Hnew. rewrite <- Heq.
        apply Hall; auto. congruence.
      * intros h' Hin Hv' Hp'. rewrite map_app. apply in_or_app.
        apply in_app_or in Hin. destruct Hin as [Hin|[<-|[]]]; auto.
        right. left. reflexivity.
Qed.

End EnumFacts.

(** The comparison ignores the case of A..Z. *)
Lemma towlower_idempotent c : towlower (towlower c) = towlower c.
Proof.
  unfold towlower.
  destruct ((65 <=? c) && (c <=? 90)) eqn:E; [|rewrite E; reflexivity].
  apply andb_true_iff in E. destruct E as [E1 E2].
  apply Z.leb_le in E1, E2.
  replace (c + 32 <=? 90) with false by (symmetry; apply Z.leb_gt; lia).
  rewrite andb_false_r. reflexivity.
Qed.

Lemma wcsicmp_ignores_case a : forall b,
  _wcsicmp (map towlower a) b = _wcsicmp a b /\
  _wcsicmp a (map towlower b) = _wcsicmp a b.
Proof.
  induction a as [|x a IH]; intros [|y b]; simpl;
    rewrite ?towlower_idempotent; auto.
  destruct (negb (towlower x =? 0) && (towlower x =? towlower y)); auto.
Qed.

Lemma resize_empty n : resize [] n = repeat 0 n.
Proof.
  unfold resize. rewrite firstn_nil. simpl. rewrite Nat.sub_0_r. reflexivity.
Qed.

Lemma resize_prefix (s t : wstring) :
  resize (s ++ t) (length s) = s.
Proof.
  unfold resize. rewrite firstn_app, firstn_all, Nat.sub_diag, length_app.
  replace (length s - (length s + length t))%nat with O by lia.
  simpl. rewrite !app_nil_r. reflexivity.
Qed.

Lemma int_of_size_t_small n :
  0 <= n <= INT_MAX -> int_of_size_t n = n.
Proof.
  unfold int_of_size_t, INT_MAX. intros H.
  rewrite Z.mod_small; lia.
Qed.


Lemma resize_zero (s : wstring) : resize s 0 = [].
Proof. reflexivity. Qed.

Lemma window_title_copied os h :
  window_title os h =
  match copied_text os h with
  | [] => NoTitle
  | _ :: _ => copied_text os h
  end.
Proof.
  unfold window_title, copied_text.
  destruct (Z.gtb_spec (GetWindowTextLengthW os h) 0) as [Hlen|Hlen];
    [|reflexivity].
  rewrite resize_empty, repeat_length. simpl andb.
  replace (Z.of_nat (Z.to_nat (GetWindowTextLengthW os h) + 1))
    with (GetWindowTextLengthW os h + 1) by lia.
  unfold GetWindowTextW.
  destruct (Z.gtb_spec (int_of_size_t (GetWindowTextLengthW os h + 1)) 0)
    as [Hmax|Hmax].
  - replace (int_of_size_t (GetWindowTextLengthW os h + 1) <=? 0) with false
      by (symmetry; apply Z.leb_gt; lia).
    set (copied := firstn _ (WindowText os h)).
    replace (Z.of_nat (length copied) <? 0) with false
      by (symmetry; apply Z.ltb_ge; lia).
    rewrite Nat2Z.id, resize_prefix. reflexivity.
  - replace (int_of_size_t (GetWindowTextLengthW os h + 1) <=? 0) with true
      by (symmetry; apply Z.leb_le; lia).
    reflexivity.
Qed.

(** Below [INT_MAX] the cast changes nothing and the characters copied are
    the first [len] characters of the text. *)
Lemma copied_text_retrieved os h :
  GetWindowTextLengthW os h < INT_MAX ->
  copied_text os h = retrieved_text os h.
Proof.
  intros Hlt. unfold copied_text, retrieved_text.
  destruct (Z.gtb_spec (GetWindowTextLengthW os h) 0) as [Hlen|Hlen].
  - rewrite int_of_size_t_small by lia.
    replace (GetWindowTextLengthW os h + 1 >? 0) with true
      by (symmetry; apply Z.gtb_lt; lia).
    simpl. f_equal. lia.
  - simpl. replace (Z.to_nat (GetWindowTextLengthW os h)) with O by lia.
    reflexivity.
Qed.

Lemma copied_text_empty os h :
  retrieved_text os h = [] -> copied_text os h = [].
Proof.
  unfold copied_text, retrieved_text. intros H.
  destruct ((GetWindowTextLengthW os h >? 0)
            && (int_of_size_t (GetWindowTextLengthW os h + 1) >? 0)) eqn:E;
    [|reflexivity].
  apply andb_true_iff in E. destruct E as [E1 E2].
  apply Z.gtb_lt in E1.
  destruct (WindowText os h) as [|c t]; [apply firstn_nil|].
  exfalso. destruct (Z.to_nat (GetWindowTextLengthW os h)) eqn:En;
    [lia|discriminate].
Qed.

Lemma window_title_retrieved os h :
  GetWindowTextLengthW os h < INT_MAX ->
  window_title os h =
  match retrieved_text os h with
  | [] => NoTitle
  | _ :: _ => retrieved_text os h
  end.
Proof.
  intros Hlt. rewrite window_title_copied, copied_text_retrieved by exact Hlt.
  reflexivity.
Qed.

Lemma window_title_nonempty os h : window_title os h <> [].
Proof.
  rewrite window_title_copied.
  destruct (copied_text os h); discriminate.
Qed.

Lemma StronglySorted_weaken {A} (R S : A -> A -> Prop) l :
  (forall x y, R x y -> S x y) -> StronglySorted R l -> StronglySorted S l.
Proof.
  intros HRS. induction 1 as [|x l Hs IH Hall]; constructor; auto.
  eapply Forall_impl; [|exact Hall]. auto.
Qed.

Section EnumerateFacts.
Context {sorter : StdSort}.
Variable os : Win32.

Lemma EnumerateApps_permutation :
  Permutation (EnumWindows (EnumWindowsProc os) (TopLevelWindows os) [])
              (EnumerateApps os).
Proof.
  apply std_sort_permutation, app_less_strict_weak_order.
Qed.

Lemma EnumerateApps_first_window e :
  In e (EnumerateApps os) -> first_window_of os (TopLevelWindows os) e.
Proof.
  intros He.
  apply (Permutation_in _ (Permutation_sym EnumerateApps_permutation)) in He.
  apply (collect_invariant os (TopLevelWindows os)), He.
Qed.

Lemma EnumerateApps_pids p :
  In p (map pid (EnumerateApps os)) <->
  p <> 0 /\
  exists h, In h (TopLevelWindows os) /\ IsWindowVisible os h = true /\
            pid_of_window os h = p.
Proof.
  split.
  - intros Hin. apply in_map_iff in Hin. destruct Hin as (e & <- & He).
    destruct (EnumerateApps_first_window e He)
      as (Heq & Hv & Hp & before & after & Hs & _).
    split; [exact Hp|]. exists (hwnd e). split; [|split; [exact Hv|]].
    + rewrite Hs. apply in_or_app. right. left. reflexivity.
    + rewrite Heq at 2. reflexivity.
  - intros (Hp & h & Hin & Hv & <-).
    apply (Permutation_in _ (Permutation_map pid EnumerateApps_permutation)).
    apply (collect_invariant os (TopLevelWindows os)); auto.
Qed.

Lemma EnumerateApps_NoDup : NoDup (map pid (EnumerateApps os)).
Proof.
  apply (Permutation_NoDup (Permutation_map pid EnumerateApps_permutation)).
  apply (collect_invariant os (TopLevelWindows os)).
Qed.

Lemma EnumerateApps_sorted : StronglySorted name_then_title (EnumerateApps os).
Proof.
  eapply StronglySorted_weaken;
    [|apply std_sort_sorted, app_less_strict_weak_order].
  intros a b H. apply app_less_false, H.
Qed.

End EnumerateFacts.

Lemma towlower_zero c : towlower c = 0 <-> c = 0.
Proof.
  unfold towlower.
  destruct ((65 <=? c) && (c <=? 90)) eqn:E; [|tauto].
  apply andb_true_iff in E. destruct E as [E1 E2].
  apply Z.leb_le in E1, E2. lia.
Qed.

(** The program's comparison against the order stated apart from it. *)
Lemma towlower_fold c : towlower c = fold_ascii_case c.
Proof.
  unfold fold_ascii_case, towlower.
  set (U := L "ABCDEFGHIJKLMNOPQRSTUVWXYZ"). vm_compute in U. subst U.
  set (W := L "abcdefghijklmnopqrstuvwxyz"). vm_compute in W. subst W.
  unfold position.
  repeat match goal with
         | |- context [?k =? c] =>
             destruct (Z.eqb_spec k c); [subst c; reflexivity|]
         end.
  destruct (Z.leb_spec 65 c); destruct (Z.leb_spec c 90); simpl;
    try reflexivity; lia.
Qed.

Lemma wcsicmp_lex a : forall b,
  (_wcsicmp a b < 0 <->
   lex_lt (map towlower (c_string a)) (map towlower (c_string b))) /\
  (_wcsicmp a b = 0 <->
   map towlower (c_string a) = map towlower (c_string b)).
Proof.
  assert (T0 : towlower 0 = 0) by reflexivity.
  induction a as [|x a IH]; intros [|y b]; simpl.
  - rewrite T0. split; [lia|tauto].
  - pose proof (towlower_zero y) as Hy.
    destruct (Z.eqb_spec y 0) as [->|Ey]; simpl; rewrite ?T0.
    + split; [lia|tauto].
    + split; [lia|]. split; [lia|]. intros [= H _]. lia.
  - pose proof (towlower_zero x) as Hx.
    destruct (Z.eqb_spec x 0) as [->|Ex]; simpl; rewrite ?T0.
    + split; [lia|tauto].
    + split; [lia|]. split; [lia|]. intros [= H _]. lia.
  - pose proof (towlower_zero x) as Hx. pose proof (towlower_zero y) as Hy.
    destruct (IH b) as [IHlt IHeq].
    destruct (Z.eqb_spec x 0) as [->|Ex];
    destruct (Z.eqb_spec y 0) as [->|Ey]; simpl; rewrite ?T0; simpl.
    + split; [lia|tauto].
    + split; [lia|]. split; [lia|]. intros [= H _]. lia.
    + destruct (Z.eqb_spec (towlower x) 0) as [E0|E0]; [tauto|]. simpl.
      destruct (Z.eqb_spec (towlower x) 0); [lia|].
      split; [lia|]. split; [lia|]. intros [= H _]. lia.
    + destruct (Z.eqb_spec (towlower x) 0) as [E0|E0]; [tauto|]. simpl.
      destruct (Z.eqb_spec (towlower x) (towlower y)) as [E|E].
      * rewrite IHlt, IHeq. rewrite E. split.
        -- split; [auto|]. intros [H|[_ H]]; [lia|exact H].
        -- split; [intros ->; reflexivity|intros [= H]; exact H].
      * split.
        -- split; [lia|]. intros [H|[H _]]; [lia|contradiction].
        -- split; [lia|]. intros [= H _]. contradiction.
Qed.

Lemma folded_towlower s : folded fold_ascii_case s = map towlower (c_string s).
Proof.
  unfold folded. apply map_ext. intros c. symmetry. apply towlower_fold.
Qed.

Lemma name_then_title_ordered a b :
  name_then_title a b -> ordered_before fold_ascii_case a b.
Proof.
  unfold name_then_title, ordered_before. rewrite !folded_towlower.
  destruct (wcsicmp_lex (processName a) (processName b)) as [Hn1 Hn2].
  destruct (wcsicmp_lex (windowTitle a) (windowTitle b)) as [Ht1 Ht2].
  intros [H|[H1 H2]].
  - left. apply Hn1, H.
  - right. split; [apply Hn2, H1|].
    destruct (Z.eq_dec (_wcsicmp (windowTitle a) (windowTitle b)) 0) as [E|E].
    + right. apply Ht2, E.
    + left. apply Ht1. lia.
Qed.

Lemma AppEntry_eq_dec (a b : AppEntry) : {a = b} + {a <> b}.
Proof.
  decide equality; try apply Z.eq_dec; apply (list_eq_dec Z.eq_dec).
Qed.

Lemma sorted_permutation_unique (l1 : list AppEntry) : forall l2,
  Permutation l1 l2 ->
  StronglySorted (fun x y => app_less y x = false) l1 ->
  StronglySorted (fun x y => app_less y x = false) l2 ->
  tie_free l1 -> l1 = l2.
Proof.
  induction l1 as [|x l1 IH]; intros l2 Hperm Hs1 Hs2 Hfree.
  - apply Permutation_nil in Hperm. auto.
  - destruct l2 as [|y l2];
      [apply Permutation_sym, Permutation_nil in Hperm; discriminate|].
    inversion Hs1 as [|? ? Hs1' Hall1]; subst.
    inversion Hs2 as [|? ? Hs2' Hall2]; subst.
    rewrite Forall_forall in Hall1, Hall2.
    assert (Hxy : x = y).
    { destruct (AppEntry_eq_dec x y) as [E|E]; [exact E|exfalso].
      assert (Hx : In x l2).
      { assert (H : In x (y :: l2))
          by (apply (Permutation_in _ Hperm); left; reflexivity).
        destruct H as [H|H]; [congruence|exact H]. }
      assert (Hy : In y l1).
      { assert (H : In y (x :: l1))
          by (apply (Permutation_in _ (Permutation_sym Hperm)); left;
              reflexivity).
        destruct H as [H|H]; [congruence|exact H]. }
      pose proof Hy as Hy0.
      apply Hall2 in Hx. apply Hall1 in Hy. simpl in Hx, Hy.
      assert (Hin : In y (x :: l1)) by (right; exact Hy0).
      destruct (Hfree x y (or_introl eq_refl) Hin E) as [H|H]; congruence. }
    subst y. f_equal.
    apply IH; auto.
    + apply Permutation_cons_inv in Hperm. exact Hperm.
    + intros a b Ha Hb. apply Hfree; right; assumption.
Qed.

(** C5, as the code has it.  Whatever the windows are, the list returned
    by [EnumerateApps] has no two entries with the same process id; the
    process ids listed are exactly those of the visible top-level windows
    whose process could be resolved; every entry is the one built from the
    first visible window of its process in enumeration order; and the list
    is in ascending order of process name and then of window title, the
    strings compared code unit by code unit after the letters A..Z, and
    only those, have been folded to lower case. *)
Theorem EnumerateApps_one_per_process_sorted {sorter : StdSort} os :
  NoDup (map pid (EnumerateApps os)) /\
  (forall p,
      In p (map pid (EnumerateApps os)) <->
      p <> 0 /\
      exists h, In h (TopLevelWindows os) /\ IsWindowVisible os h = true /\
                pid_of_window os h = p) /\
  (forall e, In e (EnumerateApps os) ->
             first_window_of os (TopLevelWindows os) e) /\
  StronglySorted (ordered_before fold_ascii_case) (EnumerateApps os).
Proof.
  split; [apply EnumerateApps_NoDup|].
  split; [apply EnumerateApps_pids|].
  split; [apply EnumerateApps_first_window|].
  eapply StronglySorted_weaken; [|apply EnumerateApps_sorted].
  exact name_then_title_ordered.
Qed.

Lemma EnumerateApps_one_per_process_sorted_witness :
  NoDup (map pid (EnumerateApps desk)) /\
  (forall p,
      In p (map pid (EnumerateApps desk)) <->
      p <> 0 /\
      exists h, In h (TopLevelWindows desk) /\ IsWindowVisible desk h = true /\
                pid_of_window desk h = p) /\
  (forall e, In e (EnumerateApps desk) ->
             first_window_of desk (TopLevelWindows desk) e) /\
  StronglySorted (ordered_before fold_ascii_case) (EnumerateApps desk).
Proof.
  exact (EnumerateApps_one_per_process_sorted (sorter := insertion_sorter)
           desk).
Defined.

(** On the desktop with the two accented names every sorting algorithm
    returns the same list. *)
Lemma EnumerateApps_accents (sorter : StdSort) :
  @EnumerateApps sorter desk_accents =
  [entry_of desk_accents 1; entry_of desk_accents 2].
Proof.
  change [entry_of desk_accents 1; entry_of desk_accents 2]
    with (@EnumerateApps insertion_sorter desk_accents).
  symmetry. apply sorted_permutation_unique.
  - rewrite <- (@EnumerateApps_permutation insertion_sorter desk_accents).
    apply EnumerateApps_permutation.
  - apply (@std_sort_sorted insertion_sorter), app_less_strict_weak_order.
  - apply std_sort_sorted, app_less_strict_weak_order.
  - intros a b Ha Hb Hne.
    destruct Ha as [<-|[<-|[]]]; destruct Hb as [<-|[<-|[]]];
      try contradiction; [left|right]; reflexivity.
Qed.

(** C5 as stated fails for letters outside ASCII.  Two processes are named
    alike but for the case of their first letter, U+00C9 against U+00E9,
    and their windows are titled "b" and "a".  A comparison that ignores
    case takes the names as equal and lists the title "a" first; the
    program, whatever sorting algorithm it runs, lists the capital letter
    first, because its code unit is the smaller one, and with it the title
    "b". *)
Lemma non_ascii_case_counterexample :
  fold_latin1_case 201 = fold_latin1_case 233 /\
  (forall sorter : StdSort,
      map (fun e => (pid e, processName e, windowTitle e))
          (@EnumerateApps sorter desk_accents) =
      [(1, 201 :: L ".exe", L "b"); (2, 233 :: L ".exe", L "a")]) /\
  (forall sorter : StdSort,
      ~ StronglySorted (ordered_before fold_latin1_case)
          (@EnumerateApps sorter desk_accents)).
Proof.
  split; [reflexivity|]. split.
  - intros sorter. rewrite EnumerateApps_accents. reflexivity.
  - intros sorter. rewrite EnumerateApps_accents. intros H.
    inversion H as [|? ? _ Hall]; subst.
    inversion Hall as [|? ? Hord _]; subst.
    vm_compute in Hord.
    repeat match goal with
           | H : _ \/ _ |- _ => destruct H
           | H : _ /\ _ |- _ => destruct H
           end; try discriminate; try contradiction.
Qed.

(** Scenario D of the specification, on the concrete desktop: the two
    windows of pid 300 give one entry, titled "Main". *)
Example EnumerateApps_desk :
  map (fun e => (hwnd e, pid e)) (EnumerateApps desk) =
    [(10, 100); (14, 400); (17, 600); (12, 300); (11, 200)] /\
  map windowTitle (filter (fun e => pid e =? 300) (EnumerateApps desk)) =
    [L "Main"].
Proof. split; reflexivity. Qed.

(** C6, as the code has it.  The title of every entry is the placeholder
    "[No Title]" when no character is retrieved from its window (the
    reported length is not positive, or the text is empty), and it is the
    text retrieved, whitespace or not, when that has at least one character
    and the reported length is below [INT_MAX].  (At [INT_MAX] the buffer
    size no longer fits the [int] handed to [GetWindowTextW]; that case is
    left out here.) *)
Theorem empty_title_replaced {sorter : StdSort} os e :
  In e (EnumerateApps os) ->
  (retrieved_text os (hwnd e) = [] -> windowTitle e = L "[No Title]") /\
  (retrieved_text os (hwnd e) <> [] ->
   GetWindowTextLengthW os (hwnd e) < INT_MAX ->
   windowTitle e = retrieved_text os (hwnd e)).
Proof.
  intros He. apply EnumerateApps_first_window in He.
  destruct He as (Heq & _). rewrite Heq. simpl. split.
  - intros H. rewrite window_title_copied, copied_text_empty by exact H.
    reflexivity.
  - intros H Hlt. rewrite window_title_retrieved by exact Hlt.
    destruct (retrieved_text os (hwnd e)); [contradiction|reflexivity].
Qed.

Lemma empty_title_replaced_witness :
  windowTitle (entry_of desk 17) = L "[No Title]".
Proof.
  apply (empty_title_replaced desk (entry_of desk 17)).
  - vm_compute. tauto.
  - reflexivity.
Defined.

(** C6 as stated fails on a title made of whitespace: window 14 of the
    concrete desktop is titled with a single space, and its entry keeps
    that title. *)
Lemma whitespace_title_counterexample :
  IsWindowVisible desk 14 = true /\
  WindowText desk 14 = L " " /\
  In (entry_of desk 14) (EnumerateApps desk) /\
  snd (EnumWindowsProc desk 14 []) = [entry_of desk 14] /\
  windowTitle (entry_of desk 14) = L " " /\
  windowTitle (entry_of desk 14) <> L "[No Title]".
Proof.
  repeat split; try reflexivity.
  - vm_compute. tauto.
  - vm_compute. discriminate.
Qed.

(** C10. Every entry returned has a process id other than 0 and a title
    with at least one character, and stands for a window whose process id
    could be resolved: a window whose process id comes out as 0 gets no
    entry. *)
Theorem entries_have_pid_and_title {sorter : StdSort} os e :
  In e (EnumerateApps os) ->
  pid e <> 0 /\ windowTitle e <> [] /\ pid_of_window os (hwnd e) <> 0.
Proof.
  intros He. apply EnumerateApps_first_window in He.
  destruct He as (Heq & _ & Hp & _).
  split; [exact Hp|]. split.
  - rewrite Heq. simpl. apply window_title_nonempty.
  - rewrite Heq in Hp. exact Hp.
Qed.

Lemma entries_have_pid_and_title_witness :
  pid (entry_of desk 12) <> 0 /\ windowTitle (entry_of desk 12) <> [] /\
  pid_of_window desk (hwnd (entry_of desk 12)) <> 0.
Proof.
  apply (entries_have_pid_and_title desk (entry_of desk 12)).
  vm_compute. tauto.
Defined.

(** * Properties of the start-up flow and of shutdown *)

Lemma ConsoleCtrlHandler_recognized g type :
  recognized type -> g_running (snd (ConsoleCtrlHandler g type)) = false.
Proof.
  intros H. unfold ConsoleCtrlHandler.
  replace ((type =? CTRL_C_EVENT) || (type =? CTRL_BREAK_EVENT)
           || (type =? CTRL_CLOSE_EVENT)) with true.
  - simpl. destruct (negb (g_mouseHook g =? NULL)); reflexivity.
  - symmetry. rewrite !orb_true_iff, !Z.eqb_eq. unfold recognized in H. tauto.
Qed.

Lemma ConsoleCtrlHandler_stays_stopped g type :
  g_running g = false -> g_running (snd (ConsoleCtrlHandler g type)) = false.
Proof.
  intros H. unfold ConsoleCtrlHandler.
  destruct ((type =? CTRL_C_EVENT) || (type =? CTRL_BREAK_EVENT)
            || (type =? CTRL_CLOSE_EVENT)); simpl; [|exact H].
  destruct (negb (g_mouseHook g =? NULL)); reflexivity.
Qed.

Lemma deliver_stays_stopped types : forall g,
  g_running g = false -> g_running (deliver types g) = false.
Proof.
  induction types as [|t types IH]; intros g H; simpl; [exact H|].
  apply IH, ConsoleCtrlHandler_stays_stopped, H.
Qed.

Lemma deliver_recognized types : forall g,
  Exists recognized types -> g_running (deliver types g) = false.
Proof.
  induction types as [|t types IH]; intros g H; inversion H; subst; simpl.
  - apply deliver_stays_stopped, ConsoleCtrlHandler_recognized. assumption.
  - apply IH. assumption.
Qed.

Lemma message_loop_stopped g pumps :
  g_running g = false -> message_loop g pumps = Some g.
Proof.
  intros H. destruct pumps; simpl; rewrite H; reflexivity.
Qed.

(** The loop ends once a recognized control event has been delivered. *)
Lemma message_loop_signalled pumps : forall g,
  Exists (fun p => Exists recognized (signals p)) pumps ->
  exists g', message_loop g pumps = Some g'.
Proof.
  induction pumps as [|p pumps IH]; intros g H; inversion H; subst; simpl.
  - destruct (g_running g); [|eauto].
    destruct (GetMessageW p >? 0); [|eauto].
    rewrite message_loop_stopped; [eauto|].
    apply deliver_recognized. assumption.
  - destruct (g_running g); [|eauto].
    destruct (GetMessageW p >? 0); eauto.
Qed.

Lemma HoverSelectPid_no_window os :
  WindowFromPoint os (sampled_cursor os) = NULL -> HoverSelectPid os = 0.
Proof.
  intros H. unfold HoverSelectPid. apply PidFromPoint_no_window, H.
Qed.

Section StartupFacts.
Context {sorter : StdSort}.
Variables (os0 os1 : Win32) (cin : Console).

(** The selection step leaves with code 2 or goes on with a process id
    other than 0. *)
Lemma wmain_select_cases :
  wmain_select os0 os1 cin = Exit 2 \/
  exists target, wmain_select os0 os1 cin = Continue target /\ target <> 0.
Proof.
  assert (Hhover :
    (if HoverSelectPid os1 =? 0 then Exit 2
     else Continue (HoverSelectPid os1)) = Exit 2 \/
    exists target,
      (if HoverSelectPid os1 =? 0 then Exit 2
       else Continue (HoverSelectPid os1)) = Continue target /\ target <> 0).
  { destruct (Z.eqb_spec (HoverSelectPid os1) 0); eauto. }
  unfold wmain_select.
  destruct (EnumerateApps os0) as [|a apps] eqn:Happs; [exact Hhover|].
  destruct (cin_choice cin) as [choice|]; [|auto].
  destruct (choice =? 0); [exact Hhover|].
  destruct ((1 <=? choice) && (choice <=? Z.of_nat (length (a :: apps))))
    eqn:Hrange; [|auto].
  right. eexists. split; [reflexivity|].
  apply andb_true_iff in Hrange. destruct Hrange as [H1 H2].
  apply Z.leb_le in H1, H2.
  assert (Hin : In (nth (Z.to_nat (choice - 1)) (a :: apps) default_entry)
                   (EnumerateApps os0)).
  { rewrite Happs. apply nth_In. lia. }
  apply EnumerateApps_first_window in Hin.
  destruct Hin as (_ & _ & Hp & _). exact Hp.
Qed.

Lemma wmain_select_hover :
  EnumerateApps os0 = [] \/ cin_choice cin = Some 0 ->
  HoverSelectPid os1 = 0 ->
  wmain_select os0 os1 cin = Exit 2.
Proof.
  intros Hsel Hmiss. unfold wmain_select. rewrite Hmiss. simpl.
  destruct (EnumerateApps os0); [reflexivity|].
  destruct Hsel as [Hsel| ->]; [discriminate|reflexivity].
Qed.

Lemma wmain_select_bad_input :
  EnumerateApps os0 <> [] -> cin_choice cin = None ->
  wmain_select os0 os1 cin = Exit 2.
Proof.
  intros Hne Hin. unfold wmain_select. rewrite Hin.
  destruct (EnumerateApps os0); [contradiction|reflexivity].
Qed.

Lemma wmain_select_out_of_range choice :
  EnumerateApps os0 <> [] -> cin_choice cin = Some choice ->
  choice <> 0 ->
  choice < 1 \/ Z.of_nat (length (EnumerateApps os0)) < choice ->
  wmain_select os0 os1 cin = Exit 2.
Proof.
  intros Hne Hin H0 Hout. unfold wmain_select. rewrite Hin.
  destruct (EnumerateApps os0) as [|a apps]; [contradiction|].
  apply Z.eqb_neq in H0. rewrite H0.
  replace ((1 <=? choice) && (choice <=? Z.of_nat (length (a :: apps))))
    with false; [reflexivity|].
  symmetry. apply andb_false_iff.
  destruct Hout; [left|right]; apply Z.leb_gt; assumption.
Qed.

End StartupFacts.

(** C7. The exit code of [wmain] is 2 when the selection fails (the menu
    input is not a number, the number is neither 0 nor an index of the
    list, or hover-select finds no window under the cursor), 3 when the
    selection succeeds and the hook cannot be installed, and 0 when the
    hook is installed and a recognized control event stops the message
    loop.  No other exit code occurs, and each code occurs in its own case
    only. *)
Theorem wmain_exit_codes {sorter : StdSort} os0 os1 cin early hook pumps :
  (EnumerateApps os0 <> [] -> cin_choice cin = None ->
   wmain os0 os1 cin early hook pumps = Some 2) /\
  (forall choice,
      EnumerateApps os0 <> [] -> cin_choice cin = Some choice ->
      choice <> 0 ->
      choice < 1 \/ Z.of_nat (length (EnumerateApps os0)) < choice ->
      wmain os0 os1 cin early hook pumps = Some 2) /\
  (EnumerateApps os0 = [] \/ cin_choice cin = Some 0 ->
   WindowFromPoint os1 (sampled_cursor os1) = NULL ->
   wmain os0 os1 cin early hook pumps = Some 2) /\
  (forall target,
      wmain_select os0 os1 cin = Continue target -> hook = NULL ->
      wmain os0 os1 cin early hook pumps = Some 3) /\
  (forall target,
      wmain_select os0 os1 cin = Continue target -> hook <> NULL ->
      Exists recognized early \/
      Exists (fun p => Exists recognized (signals p)) pumps ->
      wmain os0 os1 cin early hook pumps = Some 0) /\
  (forall code,
      wmain os0 os1 cin early hook pumps = Some code ->
      (code = 2 /\ wmain_select os0 os1 cin = Exit 2) \/
      (code = 3 /\ hook = NULL /\
       exists target, wmain_select os0 os1 cin = Continue target) \/
      (code = 0 /\ hook <> NULL /\
       exists target, wmain_select os0 os1 cin = Continue target)).
Proof.
  split; [|split; [|split; [|split; [|split]]]].
  - intros Hne Hin. unfold wmain.
    rewrite wmain_select_bad_input; auto.
  - intros choice Hne Hin H0 Hout. unfold wmain.
    rewrite (wmain_select_out_of_range os0 os1 cin choice); auto.
  - intros Hsel Hmiss. unfold wmain.
    rewrite wmain_select_hover; auto using HoverSelectPid_no_window.
  - intros target Hsel Hhook. unfold wmain. rewrite Hsel, Hhook.
    reflexivity.
  - intros target Hsel Hhook Hsig. unfold wmain. rewrite Hsel. simpl.
    apply Z.eqb_neq in Hhook. rewrite Hhook.
    destruct Hsig as [Hsig|Hsig].
    + rewrite message_loop_stopped; [reflexivity|].
      simpl. apply deliver_recognized, Hsig.
    + destruct (message_loop_signalled pumps
                  (mkGlobals hook
                     (g_targetPid (deliver early (mkGlobals NULL target true)))
                     (g_running (deliver early (mkGlobals NULL target true))))
                  Hsig) as [g' ->].
      reflexivity.
  - intros code. unfold wmain.
    destruct (wmain_select_cases os0 os1 cin) as [->|(target & -> & _)].
    + intros [= <-]. auto.
    + simpl. destruct (Z.eqb_spec hook NULL) as [Hhook|Hhook].
      * intros [= <-]. right; left. eauto.
      * destruct (message_loop _ pumps); [|discriminate].
        intros [= <-]. right; right. eauto.
Qed.

Lemma wmain_exit_codes_witness :
  wmain desk desk (mkConsole (Some 1)) [] 77
        [mkPump [] 1; mkPump [CTRL_C_EVENT] 1] = Some 0 /\
  wmain desk desk_alt (mkConsole (Some 0)) [] 77 [] = Some 2 /\
  wmain desk desk (mkConsole (Some 1)) [] NULL [] = Some 3.
Proof.
  split; [|split].
  - destruct (wmain_exit_codes desk desk (mkConsole (Some 1)) [] 77
                [mkPump [] 1; mkPump [CTRL_C_EVENT] 1])
      as (_ & _ & _ & _ & H & _).
    apply (H 100).
    + reflexivity.
    + vm_compute; discriminate.
    + right. apply Exists_cons_tl, Exists_cons_hd, Exists_cons_hd.
      left; reflexivity.
  - destruct (wmain_exit_codes desk desk_alt (mkConsole (Some 0)) [] 77 [])
      as (_ & _ & H & _).
    apply H; [right|]; reflexivity.
  - destruct (wmain_exit_codes desk desk (mkConsole (Some 1)) [] NULL [])
      as (_ & _ & _ & H & _).
    apply (H 100); reflexivity.
Defined.

(** Three runs on the concrete desktop: a clean shutdown by Ctrl+C after
    picking the first entry, a failed hover-select over the empty part of
    the screen, and a failed installation of the hook. *)
Example wmain_runs :
  wmain desk desk (mkConsole (Some 1)) [] 77
        [mkPump [] 1; mkPump [CTRL_C_EVENT] 1; mkPump [] 1] = Some 0 /\
  wmain desk desk_alt (mkConsole (Some 0)) [] 77 [] = Some 2 /\
  wmain desk desk (mkConsole (Some 9)) [] 77 [] = Some 2 /\
  wmain desk desk (mkConsole None) [] 77 [] = Some 2 /\
  wmain desk desk (mkConsole (Some 2)) [] NULL [] = Some 3 /\
  wmain desk desk (mkConsole (Some 2)) [] 77 [mkPump [] 1] = None.
Proof. repeat split; reflexivity. Qed.

(** * Further properties of the hook procedure *)

Lemma foreground_pid_unresolved os :
  GetForegroundWindow os = NULL \/
  GetWindowThreadProcessId os (GetForegroundWindow os) = None ->
  foreground_pid os = 0.
Proof.
  unfold foreground_pid, pid_of_window. intros [H|H]; rewrite H.
  - reflexivity.
  - destruct (GetForegroundWindow os =? NULL); reflexivity.
Qed.

(** X1. When there is no foreground window, or its process cannot be
    resolved, every event is forwarded, whatever the target and whatever
    lies under the cursor. *)
Theorem foreground_unresolved_forwarded os g nCode wParam lParam :
  GetForegroundWindow os = NULL \/
  GetWindowThreadProcessId os (GetForegroundWindow os) = None ->
  LowLevelMouseProc os g nCode wParam lParam =
    CallNextHookEx (g_mouseHook g) nCode wParam lParam.
Proof.
  intros H. apply foreground_pid_unresolved in H.
  unfold LowLevelMouseProc. rewrite H.
  destruct (Z.eqb_spec (g_targetPid g) 0) as [E|E].
  - rewrite andb_false_r. reflexivity.
  - replace (0 =? g_targetPid g) with false
      by (symmetry; apply Z.eqb_neq; lia).
    destruct (nCode =? HC_ACTION); destruct (is_wheel wParam); reflexivity.
Qed.

Lemma foreground_unresolved_forwarded_witness :
  LowLevelMouseProc desk_paths (guarding 100) HC_ACTION WM_MOUSEWHEEL
    (wheel_at 150 50) =
  CallNextHookEx 77 HC_ACTION WM_MOUSEWHEEL (wheel_at 150 50).
Proof.
  apply (foreground_unresolved_forwarded desk_paths (guarding 100) HC_ACTION
           WM_MOUSEWHEEL (wheel_at 150 50)).
  left; reflexivity.
Defined.

(** X2. With the target in front and a window under the wheel event whose
    root ancestor exists, the verdict follows the process of that root
    alone: the event is swallowed exactly when the root belongs to another
    process, whichever process the window itself reports. *)
Theorem wheel_verdict_follows_root os g nCode wParam lParam :
  nCode = HC_ACTION ->
  wParam = WM_MOUSEWHEEL \/ wParam = WM_MOUSEHWHEEL ->
  g_targetPid g <> 0 ->
  foreground_pid os = g_targetPid g ->
  WindowFromPoint os (pt lParam) <> NULL ->
  GetAncestor_GA_ROOT os (WindowFromPoint os (pt lParam)) <> NULL ->
  (LowLevelMouseProc os g nCode wParam lParam = Return1 <->
   pid_of_window os (GetAncestor_GA_ROOT os (WindowFromPoint os (pt lParam)))
     <> g_targetPid g) /\
  (LowLevelMouseProc os g nCode wParam lParam =
     CallNextHookEx (g_mouseHook g) nCode wParam lParam <->
   pid_of_window os (GetAncestor_GA_ROOT os (WindowFromPoint os (pt lParam)))
     = g_targetPid g).
Proof.
  intros Hc Hw Ht Hf Hh Hr.
  apply is_wheel_true in Hw.
  rewrite (LowLevelMouseProc_armed os g nCode wParam lParam Hc Ht Hw).
  rewrite Hf, Z.eqb_refl. simpl.
  unfold PidFromPoint.
  apply Z.eqb_neq in Hh, Hr. rewrite Hh, Hr.
  destruct (Z.eqb_spec
              (pid_of_window os
                 (GetAncestor_GA_ROOT os (WindowFromPoint os (pt lParam))))
              (g_targetPid g)) as [E|E]; simpl.
  - split; split; try discriminate; try contradiction; auto.
  - split; split; try discriminate; try contradiction; auto.
Qed.

Lemma wheel_verdict_follows_root_witness :
  LowLevelMouseProc desk_alt (guarding 100) HC_ACTION WM_MOUSEWHEEL
    (wheel_at 5 5) = Return1.
Proof.
  apply (wheel_verdict_follows_root desk_alt (guarding 100) HC_ACTION
           WM_MOUSEWHEEL (wheel_at 5 5)).
  - reflexivity.
  - left; reflexivity.
  - simpl; lia.
  - reflexivity.
  - vm_compute; discriminate.
  - vm_compute; discriminate.
  - vm_compute; discriminate.
Defined.

(** * Further properties of shutdown *)

Lemma recognized_dec type : {recognized type} + {~ recognized type}.
Proof.
  unfold recognized.
  destruct (Z.eq_dec type CTRL_C_EVENT); [left; auto|].
  destruct (Z.eq_dec type CTRL_BREAK_EVENT); [left; auto|].
  destruct (Z.eq_dec type CTRL_CLOSE_EVENT); [left; auto|].
  right. tauto.
Qed.

Lemma ConsoleCtrlHandler_effect g type :
  (recognized type -> ConsoleCtrlHandler g type = (true, stopped g)) /\
  (~ recognized type -> ConsoleCtrlHandler g type = (false, g)).
Proof.
  unfold ConsoleCtrlHandler.
  destruct ((type =? CTRL_C_EVENT) || (type =? CTRL_BREAK_EVENT)
            || (type =? CTRL_CLOSE_EVENT)) eqn:E.
  - split; [intros _|intros H; exfalso; apply H].
    + unfold stopped. simpl.
      destruct (Z.eqb_spec (g_mouseHook g) NULL) as [E0|E0]; simpl;
        [rewrite E0|]; reflexivity.
    + rewrite !orb_true_iff, !Z.eqb_eq in E. unfold recognized. tauto.
  - split; [intros H; exfalso|reflexivity].
    rewrite !orb_false_iff, !Z.eqb_neq in E. unfold recognized in H. tauto.
Qed.

Lemma stopped_stopped g : stopped (stopped g) = stopped g.
Proof. reflexivity. Qed.

Lemma deliver_cons t types g :
  deliver (t :: types) g = deliver types (snd (ConsoleCtrlHandler g t)).
Proof. reflexivity. Qed.

Lemma deliver_cases types : forall g,
  (Exists recognized types /\ deliver types g = stopped g) \/
  (Forall (fun t => ~ recognized t) types /\ deliver types g = g).
Proof.
  induction types as [|t types IH]; intros g.
  - right. split; [constructor|reflexivity].
  - rewrite deliver_cons.
    destruct (ConsoleCtrlHandler_effect g t) as [Eyes Eno].
    destruct (recognized_dec t) as [Hr|Hr].
    + left. split; [left; exact Hr|].
      rewrite (Eyes Hr). simpl.
      destruct (IH (stopped g)) as [[_ ->]|[_ ->]]; reflexivity.
    + rewrite (Eno Hr). simpl.
      destruct (IH g) as [[He ->]|[Ha ->]].
      * left. split; [right; exact He|reflexivity].
      * right. split; [constructor; assumption|reflexivity].
Qed.

Lemma Exists_Forall_not {A} (P : A -> Prop) l :
  Exists P l -> Forall (fun x => ~ P x) l -> False.
Proof.
  induction 1 as [x l H|x l H IH]; intros HF; inversion HF; subst; auto.
Qed.

(** X3. The handler answers [TRUE] exactly for Ctrl+C, Ctrl+Break and the
    close event; it then clears the running flag and the hook handle and
    leaves the target alone, and handling a second such event changes
    nothing more.  Any other event is declined and leaves the globals
    untouched. *)
Theorem ConsoleCtrlHandler_idempotent g type1 type2 :
  recognized type1 ->
  ConsoleCtrlHandler g type1 = (true, mkGlobals NULL (g_targetPid g) false) /\
  (recognized type2 ->
   ConsoleCtrlHandler (snd (ConsoleCtrlHandler g type1)) type2 =
     ConsoleCtrlHandler g type1) /\
  (~ recognized type2 ->
   ConsoleCtrlHandler (snd (ConsoleCtrlHandler g type1)) type2 =
     (false, snd (ConsoleCtrlHandler g type1)) /\
   ConsoleCtrlHandler g type2 = (false, g)).
Proof.
  intros H1.
  destruct (ConsoleCtrlHandler_effect g type1) as [E1 _].
  rewrite (E1 H1). simpl. split; [reflexivity|]. split; intros H2.
  - destruct (ConsoleCtrlHandler_effect (stopped g) type2) as [E2 _].
    rewrite (E2 H2). reflexivity.
  - destruct (ConsoleCtrlHandler_effect (stopped g) type2) as [_ E2].
    destruct (ConsoleCtrlHandler_effect g type2) as [_ E3].
    rewrite (E2 H2), (E3 H2). auto.
Qed.

Lemma ConsoleCtrlHandler_idempotent_witness :
  ConsoleCtrlHandler (guarding 100) CTRL_C_EVENT =
    (true, mkGlobals NULL 100 false).
Proof.
  assert (H : recognized CTRL_C_EVENT) by (left; reflexivity).
  exact (proj1 (ConsoleCtrlHandler_idempotent (guarding 100) CTRL_C_EVENT
                  CTRL_CLOSE_EVENT H)).
Defined.

(** X4. A sequence of control events leaves the globals as they were when
    none of the events is one the handler acts on, and otherwise leaves
    them with the running flag cleared, the hook handle null and the target
    unchanged, in whatever order and number the events came. *)
Theorem deliver_outcome types g :
  (Exists recognized types ->
   deliver types g = mkGlobals NULL (g_targetPid g) false) /\
  (Forall (fun t => ~ recognized t) types -> deliver types g = g) /\
  g_targetPid (deliver types g) = g_targetPid g.
Proof.
  destruct (deliver_cases types g) as [[He ->]|[Ha ->]].
  - split; [reflexivity|]. split; [|reflexivity].
    intros HF. destruct (Exists_Forall_not _ _ He HF).
  - split; [|split; reflexivity].
    intros He. destruct (Exists_Forall_not _ _ He Ha).
Qed.

(** X5. Control events never change what the hook decides: the verdict
    under the globals left by any sequence of events is the verdict under
    the globals before them. *)
Theorem verdict_unchanged_by_control_events os g types nCode wParam lParam :
  verdict (LowLevelMouseProc os (deliver types g) nCode wParam lParam) =
  verdict (LowLevelMouseProc os g nCode wParam lParam).
Proof.
  rewrite !verdict_LowLevelMouseProc.
  destruct (deliver_cases types g) as [[_ ->]|[_ ->]]; reflexivity.
Qed.

(** * Further properties of the message loop and of [wmain] *)

(** The pumps that keep the loop going: no recognized control event
    arrives and [GetMessageW] returns a positive value. *)
Lemma message_loop_None_iff pumps : forall g,
  message_loop g pumps = None <->
  g_running g = true /\
  Forall (fun p => Forall (fun t => ~ recognized t) (signals p) /\
                   GetMessageW p > 0) pumps.
Proof.
  induction pumps as [|p pumps IH]; intros g; simpl.
  - destruct (g_running g); split; try discriminate; auto.
    intros [H _]; discriminate.
  - destruct (g_running g) eqn:Hrun.
    + destruct (Z.gtb_spec (GetMessageW p) 0) as [Hpos|Hpos].
      * rewrite IH.
        destruct (deliver_cases (signals p) g) as [[He ->]|[Ha ->]].
        -- simpl. split; [intros [H _]; discriminate|].
           intros [_ HF]. inversion HF as [|? ? [Hno _] _]; subst.
           destruct (Exists_Forall_not _ _ He Hno).
        -- rewrite Hrun. split.
           ++ intros [_ HF]. split; [reflexivity|]. constructor; auto.
              split; [exact Ha|lia].
           ++ intros [_ HF]. inversion HF; subst. auto.
      * split; [discriminate|].
        intros [_ HF]. inversion HF as [|? ? [_ Hgt] _]; subst. lia.
    + split; [discriminate|]. intros [H _]; discriminate.
Qed.



Section WmainFacts.
Context {sorter : StdSort}.
Variables (os0 os1 : Win32) (cin : Console).
Variables (early : list DWORD) (hook : HHOOK) (pumps : list Pump).

(** [wmain] once the selection has succeeded and the hook is installed. *)
Lemma wmain_armed target :
  wmain_select os0 os1 cin = Continue target -> hook <> NULL ->
  wmain os0 os1 cin early hook pumps =
  match message_loop
          (mkGlobals hook target
             (g_running (deliver early (mkGlobals NULL target true))))
          pumps with
  | None => None
  | Some _ => Some 0
  end.
Proof.
  intros Hsel Hhook. unfold wmain. rewrite Hsel. simpl.
  apply Z.eqb_neq in Hhook. rewrite Hhook.
  destruct (deliver_cases early (mkGlobals NULL target true))
    as [[_ ->]|[_ ->]]; reflexivity.
Qed.

Lemma running_after_early target :
  g_running (deliver early (mkGlobals NULL target true)) = true <->
  Forall (fun t => ~ recognized t) early.
Proof.
  destruct (deliver_cases early (mkGlobals NULL target true))
    as [[He ->]|[Ha ->]]; simpl.
  - split; [discriminate|]. intros HF.
    destruct (Exists_Forall_not _ _ He HF).
  - tauto.
Qed.

End WmainFacts.

(** X7. Over any finite run of answered [GetMessageW] calls, [wmain] is
    still in its message loop after the last answer exactly when the
    selection succeeded, the hook was installed, no recognized control
    event was delivered before the loop or during one of those answered
    calls, and each of those calls returned a positive value.  Answered
    calls only: the loop tests [g_running] after [GetMessageW] returns, so
    an event that arrives during a call that never returns is not covered
    and does not make [wmain] return. *)
Theorem wmain_keeps_running_iff {sorter : StdSort}
    os0 os1 cin early hook pumps :
  wmain os0 os1 cin early hook pumps = None <->
  (exists target, wmain_select os0 os1 cin = Continue target) /\
  hook <> NULL /\
  Forall (fun t => ~ recognized t) early /\
  Forall (fun p => Forall (fun t => ~ recognized t) (signals p) /\
                   GetMessageW p > 0) pumps.
Proof.
  destruct (wmain_select_cases os0 os1 cin) as [Hsel|(target & Hsel & _)].
  - unfold wmain. rewrite Hsel. split; [discriminate|].
    intros [[target H] _]. discriminate.
  - destruct (Z.eq_dec hook NULL) as [Hhook|Hhook].
    + unfold wmain. rewrite Hsel, Hhook. simpl.
      split; [discriminate|]. intros (_ & H & _). contradiction.
    + rewrite (wmain_armed os0 os1 cin early hook pumps target Hsel Hhook).
      rewrite <- (running_after_early early target).
      pose proof (message_loop_None_iff pumps
                    (mkGlobals hook target
                       (g_running
                          (deliver early (mkGlobals NULL target true)))))
        as Hloop. simpl in Hloop.
      destruct (message_loop _ pumps).
      * split; [discriminate|]. intros (_ & _ & H1 & H2).
        destruct Hloop as [_ Hloop].
        discriminate (Hloop (conj H1 H2)).
      * split; [intros _|reflexivity].
        destruct Hloop as [Hloop _]. destruct (Hloop eq_refl) as [H1 H2].
        split; [eauto|]. split; [exact Hhook|]. split; assumption.
Qed.

(** X8. Once the selection has succeeded and the hook is installed, a call
    of [GetMessageW] that returns zero (a quit message) or a negative value
    (an error) ends the program with exit code 0, control event or not. *)
Theorem wmain_quit_message {sorter : StdSort}
    os0 os1 cin early hook pumps target :
  wmain_select os0 os1 cin = Continue target -> hook <> NULL ->
  Exists (fun p => GetMessageW p <= 0) pumps ->
  wmain os0 os1 cin early hook pumps = Some 0.
Proof.
  intros Hsel Hhook Hquit.
  rewrite (wmain_armed os0 os1 cin early hook pumps target Hsel Hhook).
  destruct (message_loop _ pumps) eqn:Hloop; [reflexivity|].
  apply message_loop_None_iff in Hloop. destruct Hloop as [_ HF].
  exfalso. induction Hquit as [p l Hp|p l _ IH];
    inversion HF as [|? ? [_ Hgt] HF']; subst; [lia|auto].
Qed.

Lemma wmain_quit_message_witness :
  wmain desk desk (mkConsole (Some 1)) [] 77
        [mkPump [] 1; mkPump [] (-1)] = Some 0.
Proof.
  apply (wmain_quit_message desk desk (mkConsole (Some 1)) [] 77
           [mkPump [] 1; mkPump [] (-1)] 100).
  - reflexivity.
  - vm_compute; discriminate.
  - apply Exists_cons_tl, Exists_cons_hd. simpl; lia.
Defined.

(** * Further properties of the selection *)

(** X9. A number between 1 and the length of the list picks the entry at
    that position, whatever the cursor is over: the target is that entry's
    process id, and it is the process of a visible top-level window of the
    enumeration. *)
Theorem wmain_select_list_pick {sorter : StdSort} os0 os1 cin choice :
  cin_choice cin = Some choice ->
  1 <= choice <= Z.of_nat (length (EnumerateApps os0)) ->
  wmain_select os0 os1 cin =
    Continue (pid (nth (Z.to_nat (choice - 1)) (EnumerateApps os0)
                       default_entry)) /\
  In (nth (Z.to_nat (choice - 1)) (EnumerateApps os0) default_entry)
     (EnumerateApps os0) /\
  exists h,
    In h (TopLevelWindows os0) /\ IsWindowVisible os0 h = true /\
    pid_of_window os0 h =
      pid (nth (Z.to_nat (choice - 1)) (EnumerateApps os0) default_entry).
Proof.
  intros Hin Hrange.
  assert (Hnth : In (nth (Z.to_nat (choice - 1)) (EnumerateApps os0)
                         default_entry) (EnumerateApps os0))
    by (apply nth_In; lia).
  split; [|split; [exact Hnth|]].
  - unfold wmain_select. rewrite Hin.
    destruct (EnumerateApps os0) as [|a apps]; [simpl in Hrange; lia|].
    replace (choice =? 0) with false by (symmetry; apply Z.eqb_neq; lia).
    replace ((1 <=? choice) && (choice <=? Z.of_nat (length (a :: apps))))
      with true; [reflexivity|].
    symmetry. apply andb_true_iff. split; apply Z.leb_le; lia.
  - apply (EnumerateApps_pids os0), in_map, Hnth.
Qed.

Lemma wmain_select_list_pick_witness :
  wmain_select desk desk_alt (mkConsole (Some 5)) = Continue 200.
Proof.
  assert (H : 1 <= 5 <= Z.of_nat (length (EnumerateApps desk)))
    by (vm_compute; split; discriminate).
  exact (proj1 (wmain_select_list_pick desk desk_alt (mkConsole (Some 5)) 5
                  eq_refl H)).
Defined.

Lemma PidFromPoint_found os p :
  PidFromPoint os p <> 0 -> WindowFromPoint os p <> NULL.
Proof.
  intros H Hn. apply H, PidFromPoint_no_window, Hn.
Qed.

(** X10. When the list is empty, whatever was typed, or when 0 was typed,
    the selection is the hover-select: it succeeds exactly when the
    resolver returns a process id other than 0 for the sampled cursor
    position, that id is the target, and a window then lies under the
    cursor.  An empty list never leads to a menu failure. *)
Theorem wmain_select_hover_select {sorter : StdSort} os0 os1 cin :
  EnumerateApps os0 = [] \/ cin_choice cin = Some 0 ->
  (forall target,
      wmain_select os0 os1 cin = Continue target <->
      target = PidFromPoint os1 (sampled_cursor os1) /\ target <> 0) /\
  (wmain_select os0 os1 cin = Exit 2 <->
   PidFromPoint os1 (sampled_cursor os1) = 0) /\
  (forall target,
      wmain_select os0 os1 cin = Continue target ->
      WindowFromPoint os1 (sampled_cursor os1) <> NULL).
Proof.
  intros Hsel.
  assert (Hhover :
    wmain_select os0 os1 cin =
    if PidFromPoint os1 (sampled_cursor os1) =? 0 then Exit 2
    else Continue (PidFromPoint os1 (sampled_cursor os1))).
  { unfold wmain_select.
    destruct (EnumerateApps os0); [reflexivity|].
    destruct Hsel as [Hsel| ->]; [discriminate|reflexivity]. }
  rewrite Hhover.
  destruct (Z.eqb_spec (PidFromPoint os1 (sampled_cursor os1)) 0) as [E|E].
  - split; [|split].
    + intros target. split; [discriminate|]. intros [-> H]. contradiction.
    + tauto.
    + discriminate.
  - split; [|split].
    + intros target. split.
      * intros [= <-]. auto.
      * intros [-> _]. reflexivity.
    + split; [discriminate|contradiction].
    + intros target _. apply PidFromPoint_found, E.
Qed.

Lemma wmain_select_hover_select_witness :
  wmain_select desk desk (mkConsole (Some 0)) = Continue 100.
Proof.
  destruct (wmain_select_hover_select desk desk (mkConsole (Some 0))
              (or_intror eq_refl)) as (H & _ & _).
  apply H. split; [reflexivity|vm_compute; discriminate].
Defined.

(** * Further properties of the enumerator *)

Lemma EnumWindows_append os l1 : forall l2 out,
  EnumWindows (EnumWindowsProc os) (l1 ++ l2) out =
  EnumWindows (EnumWindowsProc os) l2
    (EnumWindows (EnumWindowsProc os) l1 out).
Proof.
  induction l1 as [|h l1 IH]; intros l2 out; simpl; [reflexivity|].
  pose proof (EnumWindowsProc_continues os h out) as Hc.
  destruct (EnumWindowsProc os h out) as [c out']. simpl in Hc.
  rewrite Hc. apply IH.
Qed.

Lemma EnumWindows_cons os h l out :
  EnumWindows (EnumWindowsProc os) (h :: l) out =
  EnumWindows (EnumWindowsProc os) l (snd (EnumWindowsProc os h out)).
Proof.
  simpl. pose proof (EnumWindowsProc_continues os h out) as Hc.
  destruct (EnumWindowsProc os h out) as [c out']. simpl in *.
  rewrite Hc. reflexivity.
Qed.

(** X11. A window that is hidden, or whose process cannot be resolved, or
    that comes after a visible window of the same process, has no effect on
    what the enumeration collects: the vector is the same as if the window
    were not there. *)
Theorem redundant_window_ignored os l1 h l2 :
  IsWindowVisible os h = false \/ pid_of_window os h = 0 \/
  (exists h', In h' l1 /\ IsWindowVisible os h' = true /\
              pid_of_window os h' = pid_of_window os h) ->
  EnumWindows (EnumWindowsProc os) (l1 ++ h :: l2) [] =
  EnumWindows (EnumWindowsProc os) (l1 ++ l2) [].
Proof.
  intros Hred. rewrite !EnumWindows_append, EnumWindows_cons.
  f_equal.
  destruct (EnumWindowsProc_step os h
              (EnumWindows (EnumWindowsProc os) l1 []))
    as [[-> _]|(_ & Hv & Hp & Hnew)]; [reflexivity|].
  exfalso. destruct Hred as [H|[H|(h' & Hin & Hv' & Heq)]];
    [congruence|contradiction|].
  apply Hnew. rewrite <- Heq.
  apply (collect_invariant os l1); auto. congruence.
Qed.

Lemma redundant_window_ignored_witness :
  EnumWindows (EnumWindowsProc desk) ([10; 11; 12] ++ 13 :: [14]) [] =
  EnumWindows (EnumWindowsProc desk) ([10; 11; 12] ++ [14]) [].
Proof.
  apply (redundant_window_ignored desk [10; 11; 12] 13 [14]).
  right; right. exists 12. split; [simpl; tauto|split; reflexivity].
Defined.

Lemma collect_length os hs :
  (length (EnumWindows (EnumWindowsProc os) hs [])
   <= length (filter (IsWindowVisible os) hs))%nat.
Proof.
  induction hs as [|h hs IH] using rev_ind; [simpl; lia|].
  rewrite EnumWindows_app, filter_app, length_app.
  destruct (EnumWindowsProc_step os h
              (EnumWindows (EnumWindowsProc os) hs []))
    as [[-> _]|(-> & Hv & _)].
  - lia.
  - rewrite length_app. simpl. rewrite Hv. simpl. lia.
Qed.

(** X12. The list returned is never longer than the number of visible
    top-level windows, and it is empty exactly when every top-level window
    is hidden or has a process that cannot be resolved. *)
Theorem EnumerateApps_size {sorter : StdSort} os :
  (length (EnumerateApps os)
   <= length (filter (IsWindowVisible os) (TopLevelWindows os)))%nat /\
  (length (filter (IsWindowVisible os) (TopLevelWindows os))
   <= length (TopLevelWindows os))%nat /\
  (EnumerateApps os = [] <->
   forall h, In h (TopLevelWindows os) ->
             IsWindowVisible os h = false \/ pid_of_window os h = 0).
Proof.
  split; [|split].
  - rewrite <- (Permutation_length (EnumerateApps_permutation os)).
    apply collect_length.
  - apply filter_length_le.
  - split.
    + intros Hnil h Hin.
      destruct (IsWindowVisible os h) eqn:Hv; [|auto].
      destruct (Z.eq_dec (pid_of_window os h) 0) as [Hp|Hp]; [auto|].
      exfalso.
      assert (Hpid : In (pid_of_window os h) (map pid (EnumerateApps os)))
        by (apply EnumerateApps_pids; eauto).
      rewrite Hnil in Hpid. exact Hpid.
    + intros Hall.
      destruct (EnumerateApps os) as [|e apps] eqn:Happs; [reflexivity|].
      exfalso.
      assert (Hpid : In (pid e) (map pid (EnumerateApps os)))
        by (rewrite Happs; left; reflexivity).
      apply EnumerateApps_pids in Hpid.
      destruct Hpid as (Hp & h & Hin & Hv & Heq).
      destruct (Hall h Hin); congruence.
Qed.

(** * Further properties of the ordering of the list *)

Lemma lower_entry_app_less a b :
  app_less (lower_entry a) (lower_entry b) = app_less a b.
Proof.
  unfold app_less, lower_entry. simpl.
  assert (H : forall x y,
             _wcsicmp (map towlower x) (map towlower y) = _wcsicmp x y).
  { intros x y. destruct (wcsicmp_ignores_case x (map towlower y)) as [-> _].
    apply wcsicmp_ignores_case. }
  rewrite !H. reflexivity.
Qed.

(** X13. The comparison given to [std::sort] is a strict weak ordering, as
    [std::sort] requires: it is irreflexive, asymmetric and transitive, and
    being unordered either way is transitive.  It does not see the case of
    the letters A..Z: putting both entries in lower case changes no
    answer. *)
Theorem app_less_strict_weak_ignoring_case :
  strict_weak_order app_less /\
  (forall a b, app_less a b = true -> app_less b a = false) /\
  (forall a b, app_less (lower_entry a) (lower_entry b) = app_less a b).
Proof.
  split; [exact app_less_strict_weak_order|].
  split; [|exact lower_entry_app_less].
  intros a b. apply less_asym, app_less_strict_weak_order.
Qed.

Lemma wcsicmp_zero_iff a : forall b,
  ~ In 0 a -> ~ In 0 b ->
  (_wcsicmp a b = 0 <-> map towlower a = map towlower b).
Proof.
  induction a as [|x a IH]; intros [|y b] Ha Hb; simpl.
  - tauto.
  - assert (towlower y <> 0) by (rewrite towlower_zero; intros ->; simpl in Hb; tauto).
    split; [lia|discriminate].
  - assert (towlower x <> 0) by (rewrite towlower_zero; intros ->; simpl in Ha; tauto).
    split; [lia|discriminate].
  - assert (Hx : towlower x <> 0)
      by (rewrite towlower_zero; intros ->; simpl in Ha; tauto).
    apply Z.eqb_neq in Hx. rewrite Hx. simpl.
    destruct (Z.eqb_spec (towlower x) (towlower y)) as [E|E].
    + rewrite IH by (simpl in *; tauto).
      split; [intros ->; rewrite E; reflexivity|intros [= _ H]; exact H].
    + split; [lia|intros [= H _]; contradiction].
Qed.

(** X14. Two entries are left unordered by the comparison exactly when
    their process names compare equal and their titles compare equal; for
    strings free of the terminator character that is: when the names are
    the same up to the case of A..Z, and so are the titles. *)
Theorem app_less_ties a b :
  (app_less a b = false /\ app_less b a = false <->
   _wcsicmp (processName a) (processName b) = 0 /\
   _wcsicmp (windowTitle a) (windowTitle b) = 0) /\
  (~ In 0 (processName a) -> ~ In 0 (processName b) ->
   ~ In 0 (windowTitle a) -> ~ In 0 (windowTitle b) ->
   (app_less a b = false /\ app_less b a = false <->
    map towlower (processName a) = map towlower (processName b) /\
    map towlower (windowTitle a) = map towlower (windowTitle b))).
Proof.
  assert (Hties :
    app_less a b = false /\ app_less b a = false <->
    _wcsicmp (processName a) (processName b) = 0 /\
    _wcsicmp (windowTitle a) (windowTitle b) = 0).
  { rewrite (app_less_false b a), (app_less_false a b).
    pose proof (wcsicmp_antisym (processName a) (processName b)).
    pose proof (wcsicmp_antisym (windowTitle a) (windowTitle b)).
    lia. }
  split; [exact Hties|].
  intros H1 H2 H3 H4. rewrite Hties.
  rewrite (wcsicmp_zero_iff _ _ H1 H2), (wcsicmp_zero_iff _ _ H3 H4).
  tauto.
Qed.

(** X15. Whatever algorithm [std::sort] uses, the lists it can produce are
    rearrangements of one another; and when no two entries are left
    unordered by the comparison, the list and with it the numbering of the
    menu is the same for every algorithm. *)
Theorem EnumerateApps_sort_independent (sorter1 sorter2 : StdSort) os :
  Permutation (@EnumerateApps sorter1 os) (@EnumerateApps sorter2 os) /\
  (tie_free (@EnumerateApps sorter1 os) ->
   @EnumerateApps sorter1 os = @EnumerateApps sorter2 os).
Proof.
  assert (Hperm :
    Permutation (@EnumerateApps sorter1 os) (@EnumerateApps sorter2 os)).
  { rewrite <- (@EnumerateApps_permutation sorter1 os).
    apply EnumerateApps_permutation. }
  split; [exact Hperm|]. intros Hfree.
  apply sorted_permutation_unique; auto;
    apply std_sort_sorted, app_less_strict_weak_order.
Qed.

(** * Further properties of process names and window titles *)

Lemma find_last_of_None s c : find_last_of s c = None <-> ~ In c s.
Proof.
  induction s as [|x s IH]; simpl; [tauto|].
  destruct (find_last_of s c) as [i|].
  - split; [discriminate|]. intros H. exfalso.
    assert (Hs : ~ In c s) by tauto.
    apply IH in Hs. discriminate.
  - destruct (Z.eqb_spec x c) as [E|E].
    + split; [discriminate|]. intros H. exfalso. auto.
    + split; [intros _|reflexivity].
      intros [H|H]; [contradiction|]. apply IH in H; auto.
Qed.

Lemma find_last_of_Some s c : forall i,
  find_last_of s c = Some i ->
  exists before after,
    s = before ++ c :: after /\ length before = i /\ ~ In c after.
Proof.
  induction s as [|x s IH]; intros i; simpl; [discriminate|].
  destruct (find_last_of s c) as [j|] eqn:E.
  - intros [= <-]. destruct (IH j eq_refl) as (before & after & -> & <- & H).
    exists (x :: before), after. auto.
  - destruct (Z.eqb_spec x c) as [->|Hx]; [|discriminate].
    intros [= <-]. exists [], s. split; [reflexivity|]. split; [reflexivity|].
    apply find_last_of_None, E.
Qed.

Lemma skipn_after (before : wstring) c after :
  skipn (S (length before)) (before ++ c :: after) = after.
Proof.
  induction before as [|x before IH]; simpl; [reflexivity|exact IH].
Qed.

Lemma In_skipn_le (s : wstring) x : forall m n,
  (m <= n)%nat -> In x (skipn n s) -> In x (skipn m s).
Proof.
  induction s as [|y s IH]; intros m n Hle Hin.
  - rewrite skipn_nil in Hin. destruct Hin.
  - destruct n as [|n].
    + replace m with O by lia. exact Hin.
    + destruct m as [|m].
      * simpl in Hin. right.
        apply (IH O n) in Hin; [exact Hin|lia].
      * simpl in *. apply (IH m n); [lia|exact Hin].
Qed.

(** The part of a path after position [i], given that a separator stands at
    [i] and none of either kind stands later. *)
Lemma basename_after full c i :
  find_last_of full c = Some i ->
  (c = backslash \/ c = slash) ->
  ~ In backslash (skipn (S i) full) -> ~ In slash (skipn (S i) full) ->
  (exists dir,
      full = dir ++ skipn (S i) full /\
      (dir = [] \/ exists d sep,
          dir = d ++ [sep] /\ (sep = backslash \/ sep = slash))) /\
  ~ In backslash (skipn (S i) full) /\ ~ In slash (skipn (S i) full).
Proof.
  intros Hfind Hc Hb Hs. split; [|auto].
  destruct (find_last_of_Some _ _ _ Hfind) as (before & after & -> & <- & _).
  rewrite skipn_after. exists (before ++ [c]).
  split; [rewrite <- app_assoc; reflexivity|].
  right. exists before, c. auto.
Qed.

(** X16. When the module-name query fails and the image-path query
    succeeds, the name returned is the end of the path after its last
    backslash or slash, whichever comes later: the path is a directory part
    that is empty or ends in a separator, followed by the name, and the
    name holds no separator.  A path without separators is returned
    whole. *)
Theorem process_name_is_basename os p full :
  OpenProcess os p = true ->
  GetModuleBaseNameW os p = None ->
  QueryFullProcessImageNameW os p = Some full ->
  (exists dir,
      full = dir ++ GetProcessNameFromPid os p /\
      (dir = [] \/ exists d sep,
          dir = d ++ [sep] /\ (sep = backslash \/ sep = slash))) /\
  ~ In backslash (GetProcessNameFromPid os p) /\
  ~ In slash (GetProcessNameFromPid os p).
Proof.
  intros Hopen Hmod Hfull.
  unfold GetProcessNameFromPid. rewrite Hopen, Hmod, Hfull.
  fold backslash. fold slash.
  destruct (find_last_of full backslash) as [i1|] eqn:E1;
  destruct (find_last_of full slash) as [i2|] eqn:E2.
  - destruct (find_last_of_Some _ _ _ E1) as (b1 & a1 & Hf1 & Hl1 & Hn1).
    destruct (find_last_of_Some _ _ _ E2) as (b2 & a2 & Hf2 & Hl2 & Hn2).
    assert (Ha1 : skipn (S i1) full = a1)
      by (rewrite Hf1, <- Hl1; apply skipn_after).
    assert (Ha2 : skipn (S i2) full = a2)
      by (rewrite Hf2, <- Hl2; apply skipn_after).
    destruct (Nat.ltb_spec i2 i1) as [Hlt|Hge].
    + apply basename_after with backslash; auto.
      * rewrite Ha1. exact Hn1.
      * intros H. apply (In_skipn_le full slash (S i2)) in H; [|lia].
        rewrite Ha2 in H. contradiction.
    + apply basename_after with slash; auto.
      * intros H. apply (In_skipn_le full backslash (S i1)) in H; [|lia].
        rewrite Ha1 in H. contradiction.
      * rewrite Ha2. exact Hn2.
  - destruct (find_last_of_Some _ _ _ E1) as (b1 & a1 & Hf1 & Hl1 & Hn1).
    apply find_last_of_None in E2.
    apply basename_after with backslash; auto.
    + rewrite Hf1, <- Hl1, skipn_after. exact Hn1.
    + intros H. apply E2. apply (In_skipn_le full slash O) in H; [exact H|lia].
  - destruct (find_last_of_Some _ _ _ E2) as (b2 & a2 & Hf2 & Hl2 & Hn2).
    apply find_last_of_None in E1.
    apply basename_after with slash; auto.
    + intros H. apply E1.
      apply (In_skipn_le full backslash O) in H; [exact H|lia].
    + rewrite Hf2, <- Hl2, skipn_after. exact Hn2.
  - apply find_last_of_None in E1, E2.
    split; [|auto]. exists []. auto.
Qed.

Lemma process_name_is_basename_witness :
  ~ In backslash (GetProcessNameFromPid desk_paths 100) /\
  ~ In slash (GetProcessNameFromPid desk_paths 100) /\
  GetProcessNameFromPid desk_paths 100 = L "arma3_x64.exe".
Proof.
  destruct (process_name_is_basename desk_paths 100
              (L "C:\Games/Arma 3\bin/arma3_x64.exe")
              eq_refl eq_refl eq_refl) as (_ & H1 & H2).
  split; [exact H1|]. split; [exact H2|reflexivity].
Defined.





(** * Properties of the console input *)

Lemma FlushInputLine_line junk : forall rest,
  ~ In newline junk -> FlushInputLine (junk ++ newline :: rest) = rest.
Proof.
  induction junk as [|c junk IH]; intros rest Hn; simpl.
  - reflexivity.
  - destruct (Z.eqb_spec c newline) as [->|_]; [simpl in Hn; tauto|].
    apply IH. simpl in Hn. tauto.
Qed.

Lemma getline_line line : forall rest,
  ~ In newline line -> getline (line ++ newline :: rest) = (line, rest).
Proof.
  induction line as [|c line IH]; intros rest Hn; simpl.
  - reflexivity.
  - destruct (Z.eqb_spec c newline) as [->|_]; [simpl in Hn; tauto|].
    rewrite IH by (simpl in Hn; tauto). reflexivity.
Qed.

(** X18. After the menu choice has been read, [FlushInputLine] drops
    whatever is left of that line, so that the line [HoverSelectPid] waits
    for is the next one typed, not the remainder of the choice line; when
    the input holds no further newline, everything is dropped and the
    hover prompt reads an empty line from an exhausted input. *)
Theorem hover_prompt_reads_fresh_line junk line rest :
  ~ In newline junk ->
  (~ In newline line ->
   getline (FlushInputLine (junk ++ newline :: line ++ newline :: rest)) =
     (line, rest)) /\
  FlushInputLine junk = [] /\
  getline (FlushInputLine junk) = ([], []).
Proof.
  intros Hjunk. split; [|split].
  - intros Hline. rewrite FlushInputLine_line by exact Hjunk.
    apply getline_line, Hline.
  - induction junk as [|c junk IH]; simpl; [reflexivity|].
    destruct (Z.eqb_spec c newline) as [->|_]; [simpl in Hjunk; tauto|].
    apply IH. simpl in Hjunk. tauto.
  - replace (FlushInputLine junk) with (@nil wchar); [reflexivity|].
    symmetry. induction junk as [|c junk IH]; simpl; [reflexivity|].
    destruct (Z.eqb_spec c newline) as [->|_]; [simpl in Hjunk; tauto|].
    apply IH. simpl in Hjunk. tauto.
Qed.

Lemma hover_prompt_reads_fresh_line_witness :
  getline (FlushInputLine
             (L " and more" ++ newline :: L "ok" ++ newline :: L "tail")) =
    (L "ok", L "tail").
Proof.
  apply (hover_prompt_reads_fresh_line (L " and more") (L "ok") (L "tail")).
  - vm_compute. intuition discriminate.
  - vm_compute. intuition discriminate.
Defined.
